(** * The boilerplate-context MCP server: repository cache, content reader,
      search and request surface

    A shallow embedding of the TypeScript server
    ([utils/repository], [mcpServer], [app], [config]) and the properties
    of it that the specification states. *)

From Stdlib Require Import ZArith Ascii String Sorted.
From stdpp Require Import base list strings pretty.

Local Open Scope string_scope.
Local Open Scope list_scope.
Set Warnings "-register-all".

(** ** JavaScript string and array primitives used by the server

    A string is a sequence of code units.  The handlers only compare
    units, cut at the line-feed unit and concatenate, so the units of
    Rocq's [string] stand for them. *)
Module JS.

Definition LF : ascii := "010"%char.
Definition nl : string := String LF "".
Definition dquote : string := String "034"%char "".

(** [s.split(sep)] for a separator of one unit: the pieces between its
    occurrences; never empty, and a text that ends with the separator has
    a last piece [""]. *)
Fixpoint split (sep : ascii) (s : string) : list string :=
  match s with
  | "" => [""]
  | String c s' =>
      if Ascii.eqb c sep then "" :: split sep s'
      else match split sep s' with
           | [] => [String c ""]
           | l :: ls => String c l :: ls
           end
  end.

(** [s.split('\n')] *)
Definition split_lines (s : string) : list string := split LF s.

(** [s.includes(q)]: [q] occurs in [s] as a contiguous run of units. *)
Fixpoint includes (s q : string) : bool :=
  String.prefix q s ||
  match s with
  | "" => false
  | String _ s' => includes s' q
  end.

(** [a.slice(start, end)] for integer arguments, with the standard
    treatment of negative and oversized indices. *)
Definition slice {A} (a : list A) (start end_ : Z) : list A :=
  let len := Z.of_nat (length a) in
  let rel (k : Z) := if (k <? 0)%Z then Z.max (len + k) 0 else Z.min k len in
  let from := rel start in
  let to := rel end_ in
  take (Z.to_nat (to - from)) (drop (Z.to_nat from) a).

(** [a.join(sep)] *)
Definition join (sep : string) (a : list string) : string :=
  String.concat sep a.

(** [a.forEach((x, index) => ...)] with the effect of the callback on
    the enclosing variables made explicit as a state [St]. *)
Fixpoint forEach_from {A St} (body : St -> A -> nat -> St)
    (a : list A) (index : nat) (st : St) : St :=
  match a with
  | [] => st
  | x :: a' => forEach_from body a' (S index) (body st x index)
  end.

Definition forEach {A St} (body : St -> A -> nat -> St) (a : list A) (st : St) : St :=
  forEach_from body a 0 st.

(** [a.push(x)] *)
Definition push {A} (a : list A) (x : A) : list A := a ++ [x].

(** [`${n}`] for a non-negative integer *)
Definition num (n : nat) : string := pretty n.

(** [toLowerCase] / [toUpperCase] on texts made of ASCII units only. *)
Definition lower_unit (c : ascii) : ascii :=
  let n := nat_of_ascii c in
  if (65 <=? n)%nat && (n <=? 90)%nat then ascii_of_nat (n + 32) else c.

Definition upper_unit (c : ascii) : ascii :=
  let n := nat_of_ascii c in
  if (97 <=? n)%nat && (n <=? 122)%nat then ascii_of_nat (n - 32) else c.

Fixpoint map_units (f : ascii -> ascii) (s : string) : string :=
  match s with
  | "" => ""
  | String c s' => String (f c) (map_units f s')
  end.

Definition ascii_toLowerCase : string -> string := map_units lower_unit.
Definition ascii_toUpperCase : string -> string := map_units upper_unit.

Fixpoint ascii_only (s : string) : bool :=
  match s with
  | "" => true
  | String c s' => (nat_of_ascii c <? 128)%nat && ascii_only s'
  end.

End JS.

(** ** [search_best_practices]: the line search of [mcpServer] *)
Module Search.
Import JS.

Section WithLowerCase.

(** [String.prototype.toLowerCase] of the host, on whole strings. *)
Variable toLowerCase : string -> string.

(** The entry pushed for a match at [index]. *)
Definition match_entry (lines : list string) (index : nat) : string :=
  let start := Z.max 0 (Z.of_nat index - 2) in
  let end_ := Z.min (Z.of_nat (length lines)) (Z.of_nat index + 3) in
  let context := join nl (slice lines start end_) in
  nl +:+ "--- Line " +:+ num (index + 1) +:+ " ---" +:+ nl +:+ context +:+ nl.

(** The callback of [lines.forEach]. *)
Definition search_body (lines : list string) (queryLower : string)
    (matches : list string) (line : string) (index : nat) : list string :=
  if includes (toLowerCase line) queryLower
  then push matches (match_entry lines index)
  else matches.

(** The [matches] array once the loop has run. *)
Definition search_matches (content query : string) : list string :=
  let lines := split_lines content in
  let matches := [] in
  let queryLower := toLowerCase query in
  forEach (search_body lines queryLower) lines matches.

(** The text of the tool result. *)
Definition search_report (platform content query : string) : string :=
  let matches := search_matches content query in
  if (0 <? length matches)%nat
  then "Found " +:+ num (length matches) +:+ " matches for " +:+ dquote +:+ query
       +:+ dquote +:+ " in " +:+ platform +:+ " AGENTS.md:" +:+ nl +:+ join nl matches
  else "No matches found for " +:+ dquote +:+ query +:+ dquote +:+ " in "
       +:+ platform +:+ " AGENTS.md".

End WithLowerCase.

End Search.

(** ** [config]: platforms and environment-sourced settings *)
Module Config.

Inductive PLATFORMS := BACKEND | FRONTEND | MOBILE.

(** The string value of each enum member. *)
Definition platform_value (p : PLATFORMS) : string :=
  match p with
  | BACKEND => "backend"
  | FRONTEND => "frontend"
  | MOBILE => "mobile"
  end.

(** [Object.values(PLATFORMS)]: the members in declaration order. *)
Definition PLATFORMS_ARRAY : list PLATFORMS := [BACKEND; FRONTEND; MOBILE].

Record config := {
  port : nat;
  repoUrl : string;
  repoDir : string;
  boilerplateDir : string;
  platforms : list PLATFORMS
}.

(** The configuration built from the environment values. *)
Definition make_config (env_port : option nat) (env_url env_dir env_bdir : option string)
    : config :=
  {| port := default 3000 env_port;
     repoUrl := default "" env_url;
     repoDir := default "" env_dir;
     boilerplateDir := default "" env_bdir;
     platforms := PLATFORMS_ARRAY |}.

End Config.

(** ** The world the server runs in: file system, console, I/O calls *)
Module World.
Import JS.

(** What a path of the working copy leads to: a file with its text, a
    file that cannot be read, or a directory with the entries [readdir]
    returns for it, in the order of the storage layer.  An entry name is
    a file name (not empty, without a separator). *)
Inductive node :=
| File (text : string)
| Unreadable
| Dir (entries : list (string * node)).

(** Errors thrown in the server. *)
Inductive JSError :=
| SystemError (code syscall path : string)
| GitError (message : string)
| Error (message : string).

(** The text of a system error code. *)
Definition describe (code : string) : string :=
  if String.eqb code "ENOENT" then "no such file or directory"
  else if String.eqb code "EACCES" then "permission denied"
  else if String.eqb code "EISDIR" then "illegal operation on a directory"
  else if String.eqb code "ENOTDIR" then "not a directory"
  else "unknown error".

(** [`${error}`] *)
Definition error_to_string (e : JSError) : string :=
  match e with
  | SystemError code syscall path =>
      "Error: " +:+ code +:+ ": " +:+ describe code +:+ ", " +:+ syscall
      +:+ " '" +:+ path +:+ "'"
  | GitError m => "Error: " +:+ m
  | Error m => "Error: " +:+ m
  end.

(** A call that leaves the process. *)
Inductive IO :=
| fs_access (path : string)
| fs_readdir (path : string)
| fs_readFile (path : string)
| git_clone (url dir : string)
| git_pull (dir : string).

(** What the remote and the git binary do when asked: [clone] gives the
    tree written to the directory or fails; [pull] gives the tree the
    directory holds afterwards and, when it failed, the error. *)
Record Git := {
  clone : JSError + node;
  pull : node -> node * option JSError
}.

(** [config.repoDir] is taken relative to the process directory, so that
    [path.join(process.cwd(), dir, ...)] and [path.join(dir, ...)] lead
    into the same tree, held in [repo]. *)
Record World := {
  repo : option node;       (* what is at [config.repoDir]; [None]: nothing *)
  console : list string;    (* lines written by console.log/warn/error *)
  calls : list IO           (* the calls made so far, oldest first *)
}.

Definition set_repo (r : option node) (w : World) : World :=
  {| repo := r; console := console w; calls := calls w |}.

Definition print (line : string) (w : World) : World :=
  {| repo := repo w; console := console w ++ [line]; calls := calls w |}.

Definition call (c : IO) (w : World) : World :=
  {| repo := repo w; console := console w; calls := calls w ++ [c] |}.

(** An async function: it changes the world and resolves or rejects. *)
Definition M (A : Type) : Type := World -> World * (JSError + A).

Definition ret {A} (a : A) : M A := fun w => (w, inr a).
Definition throw {A} (e : JSError) : M A := fun w => (w, inl e).

Definition bind {A B} (m : M A) (k : A -> M B) : M B :=
  fun w => match m w with
           | (w', inr a) => k a w'
           | (w', inl e) => (w', inl e)
           end.

(** [try { m } catch (error) { h error }] *)
Definition try_catch {A} (m : M A) (h : JSError -> M A) : M A :=
  fun w => match m w with
           | (w', inr a) => (w', inr a)
           | (w', inl e) => h e w'
           end.

Definition effect (f : World -> World) : M unit := fun w => (f w, inr tt).
Definition get_repo : M (option node) := fun w => (w, inr (repo w)).

(** [await Promise.all(xs.map(f))]: every call is started, in order;
    the results keep that order; one rejection rejects the whole (the
    first in the order of [xs] stands for the one that settles first). *)
Fixpoint promise_all_map {A B} (f : A -> M B) (xs : list A) : M (list B) :=
  fun w =>
    match xs with
    | [] => (w, inr [])
    | x :: xs' =>
        let (w1, r) := f x w in
        let (w2, rs) := promise_all_map f xs' w1 in
        match r, rs with
        | inl e, _ => (w2, inl e)
        | inr _, inl e => (w2, inl e)
        | inr b, inr bs => (w2, inr (b :: bs))
        end
    end.

(** [for (const x of xs) { ... }] with awaits in the body; [st] is what
    the body mutates. *)
Definition for_of {A St} (body : A -> St -> M St) : list A -> St -> M St :=
  fix loop (xs : list A) (st : St) : M St :=
    match xs with
    | [] => ret st
    | x :: xs' => bind (body x st) (loop xs')
    end.

(** [path.join] on segments that need no normalising (none is [.] or
    [..], none holds a doubled separator): empty segments are dropped,
    the rest joined by the separator; [.] when nothing is left. *)
Definition path_join2 (a b : string) : string :=
  match a, b with
  | "", "" => "."
  | "", _ => b
  | _, "" => a
  | _, _ => a +:+ "/" +:+ b
  end.

Definition path_join (segments : list string) : string :=
  match filter (fun s => s <> "") segments with
  | [] => "."
  | s :: ss => foldl (fun acc x => acc +:+ "/" +:+ x) s ss
  end.

(** The segments of a relative path of the configuration (one without
    [..]): what [path.join] keeps of it. *)
Definition path_segments (s : string) : list string :=
  filter (fun x => x <> "" /\ x <> ".") (split "/" s).

(** Following segments down from a node. *)
Fixpoint lookup_entry (name : string) (entries : list (string * node)) : option node :=
  match entries with
  | [] => None
  | (n, x) :: rest => if String.eqb n name then Some x else lookup_entry name rest
  end.

Fixpoint find_path (n : node) (segments : list string) : option node :=
  match segments with
  | [] => Some n
  | s :: rest =>
      match n with
      | Dir entries =>
          match lookup_entry s entries with
          | Some child => find_path child rest
          | None => None
          end
      | _ => None
      end
  end.

End World.

Notation "'let!' x ':=' m 'in' k" := (World.bind m (fun x => k))
  (at level 10, x pattern, m at level 100, k at level 200).
Notation "'do!' m 'in' k" := (World.bind m (fun _ => k))
  (at level 10, m at level 100, k at level 200).

(** ** [utils/repository]: the repository cache and the content reader *)
Module Repository.
Import JS Config World.

Section RepoTools.

(** [repoTools(url, dir)], the process directory, the configuration
    and the behaviour of git. *)
Variables (url dir : string) (cwd : string) (cfg : config) (git : Git).

(** [fs.access(dir)], with its rejection turned into [false]. *)
Definition access_dir : M bool :=
  do! effect (call (fs_access dir)) in
  let! r := get_repo in
  match r with
  | Some _ => ret true
  | None =>
      let error := SystemError "ENOENT" "access" dir in
      do! effect (print ("Something went wrong accessing the repository directory: "
                         +:+ error_to_string error)) in
      ret false
  end.

(** [git.clone(url, dir)] *)
Definition do_clone : M unit :=
  do! effect (call (git_clone url dir)) in
  match clone git with
  | inr tree => effect (set_repo (Some tree))
  | inl e => throw e
  end.

(** [simpleGit(dir).pull()] *)
Definition do_pull : M unit :=
  do! effect (call (git_pull dir)) in
  let! r := get_repo in
  match r with
  | Some tree =>
      let (tree', failure) := pull git tree in
      do! effect (set_repo (Some tree')) in
      match failure with
      | Some e => throw e
      | None => ret tt
      end
  | None => throw (GitError "not a git repository")
  end.

Definition ensureRepo : M unit :=
  try_catch
    (let! exists_ := access_dir in
     if negb exists_ then
       do! effect (print "Cloning repository...") in
       do_clone
     else
       do! effect (print "Pulling repository...") in
       do_pull)
    (fun error =>
       do! effect (print ("Error managing repository: " +:+ error_to_string error)) in
       throw error).

(** The loop body's test on an entry name. *)
Definition skipped (name : string) : bool :=
  String.prefix "." name || String.eqb name "node_modules".

(** [traverse(dir, prefix)], reading the directory [n] found at [dir];
    [files] is the array the calls share.  [readdir] rejects on what is
    not a directory; an entry that [isDirectory()] holds for is one, so
    only the first call can meet that. *)
Fixpoint traverse (n : node) (dir prefix : string) (files : list string)
    : M (list string) :=
  do! effect (print ("Reading directory: " +:+ dir)) in
  do! effect (call (fs_readdir dir)) in
  match n with
  | Dir entries =>
      for_of (fun (entry : string * node) (files : list string) =>
        let (name, child) := entry in
        if skipped name then ret files
        else
          let fullPath := path_join2 dir name in
          let relativePath := path_join2 prefix name in
          match child with
          | Dir _ =>
              traverse child fullPath relativePath (push files (relativePath +:+ "/"))
          | _ => ret (push files relativePath)
          end) entries files
  | _ => throw (SystemError "ENOTDIR" "scandir" dir)
  end.

(** The segments from the working copy to a platform's directory. *)
Definition platform_segments (platform : PLATFORMS) : list string :=
  path_segments (boilerplateDir cfg) ++ [platform_value platform].

Definition getDirectoryStructure (platform : PLATFORMS) : M (list string) :=
  let dirPath := path_join [cwd; dir; boilerplateDir cfg; platform_value platform] in
  let files := [] in
  let! r := get_repo in
  match r ≫= (fun root => find_path root (platform_segments platform)) with
  | Some n => traverse n dirPath "" files
  | None =>
      do! effect (print ("Reading directory: " +:+ dirPath)) in
      do! effect (call (fs_readdir dirPath)) in
      throw (SystemError "ENOENT" "scandir" dirPath)
  end.

(** [fs.readFile(filePath, "utf-8")] *)
Definition readFile (filePath : string) (segments : list string) : M string :=
  do! effect (call (fs_readFile filePath)) in
  let! r := get_repo in
  match r ≫= (fun root => find_path root segments) with
  | Some (File text) => ret text
  | Some Unreadable => throw (SystemError "EACCES" "open" filePath)
  | Some (Dir _) => throw (SystemError "EISDIR" "read" filePath)
  | None => throw (SystemError "ENOENT" "open" filePath)
  end.

Definition readAgentsMd (platform : PLATFORMS) : M string :=
  let filePath :=
    path_join [dir; boilerplateDir cfg; platform_value platform; "AGENTS.md"] in
  try_catch
    (readFile filePath (platform_segments platform ++ ["AGENTS.md"]))
    (fun error =>
       throw (Error ("Failed to read AGENTS.md for " +:+ platform_value platform
                     +:+ ": " +:+ error_to_string error))).

(** The start of [repoTools]: the first [ensureRepo]; a failure ends
    the process with the exit code given. *)
Definition repoTools : World -> World * option nat :=
  fun w =>
    match ensureRepo w with
    | (w', inr _) => (w', None)
    | (w', inl error) =>
        (print ("Failed to initialize repository: " +:+ error_to_string error) w',
         Some 1)
    end.

End RepoTools.

End Repository.

(** ** [mcpServer]: resources and tools *)
Module McpServer.
Import JS Config World Repository Search.

Record ResourceContents := {
  uri : string;
  mimeType : string;
  text : string
}.

(** What a client can ask of the server. *)
Inductive Operation :=
| read_resource (platform : PLATFORMS)
| get_boilerplate_structure (platform : PLATFORMS)
| search_best_practices (platform : PLATFORMS) (query : string)
| get_all_contexts.

Section GetMcpServer.

Variables (cwd : string) (cfg : config) (git : Git).
Variable toLowerCase : string -> string.

(** The functions [repoTools(config.repoUrl, config.repoDir)] returns. *)
Definition ensureRepo : M unit := Repository.ensureRepo (repoUrl cfg) (repoDir cfg) git.
Definition getDirectoryStructure : PLATFORMS -> M (list string) :=
  Repository.getDirectoryStructure (repoDir cfg) cwd cfg.
Definition readAgentsMd : PLATFORMS -> M string :=
  Repository.readAgentsMd (repoDir cfg) cfg.

Definition resource_uri (platform : PLATFORMS) : string :=
  "boilerplate://" +:+ platform_value platform +:+ "/agents.md".

(** The read callback of the resource registered for [platform]. *)
Definition resource_handler (platform : PLATFORMS) : M (list ResourceContents) :=
  do! ensureRepo in
  let! content := readAgentsMd platform in
  ret [ {| uri := resource_uri platform;
           mimeType := "text/markdown";
           text := content |} ].

(** The resources registered by [config.platforms.forEach]. *)
Definition resources : list (string * M (list ResourceContents)) :=
  map (fun platform => (resource_uri platform, resource_handler platform))
      (platforms cfg).

(** The tool callbacks; each gives the text of its one content item. *)
Definition get_boilerplate_structure_handler (platform : PLATFORMS) : M string :=
  let! structure := getDirectoryStructure platform in
  ret ("File structure for " +:+ platform_value platform +:+ " boilerplate:"
       +:+ nl +:+ nl +:+ join nl structure).

Definition search_best_practices_handler (platform : PLATFORMS) (query : string)
    : M string :=
  let! content := readAgentsMd platform in
  ret (search_report toLowerCase (platform_value platform) content query).

Definition context_of (platform : PLATFORMS) : M string :=
  let! content := readAgentsMd platform in
  ret ("## " +:+ ascii_toUpperCase (platform_value platform) +:+ " AGENTS.md"
       +:+ nl +:+ nl +:+ content).

Definition contexts_separator : string :=
  nl +:+ nl +:+ "---" +:+ nl +:+ nl.

Definition get_all_contexts_handler : M string :=
  let! contexts := promise_all_map context_of (platforms cfg) in
  ret (join contexts_separator contexts).

(** One request, answered by the callback registered for it. *)
Definition handle (op : Operation) : M string :=
  match op with
  | read_resource platform =>
      let! contents := resource_handler platform in
      ret (join "" (map text contents))
  | get_boilerplate_structure platform => get_boilerplate_structure_handler platform
  | search_best_practices platform query => search_best_practices_handler platform query
  | get_all_contexts => get_all_contexts_handler
  end.

End GetMcpServer.

End McpServer.

(** ** [app]: the HTTP routes *)
Module App.

(** The verbs a route can be registered for and a request can carry; HEAD
    and OPTIONS, which the framework answers by itself from the routes
    of the other verbs, are left out. *)
Inductive Verb := GET | POST | PUT | DELETE | PATCH.

Inductive json :=
| JNull
| JNum (z : Z)
| JStr (s : string)
| JObj (fields : list (string * json)).

Record Response := {
  status : nat;
  body : json
}.

(** [res.status(code).json({ jsonrpc, error: { code, message }, id: null })] *)
Definition jsonrpc_error (http : nat) (code : Z) (message : string) : Response :=
  {| status := http;
     body := JObj [("jsonrpc", JStr "2.0");
                   ("error", JObj [("code", JNum code); ("message", JStr message)]);
                   ("id", JNull)] |}.

(** What connecting the transport and handling the request came to. *)
Inductive TransportOutcome :=
| Handled (r : Response)
| Threw (headersSent : option Response).

Inductive Handler :=
| mcp_post
| health
| mcp_get
| mcp_delete.

(** The routes in the order [createApp] registers them. *)
Definition routes : list (Verb * string * Handler) :=
  [ (POST, "/mcp", mcp_post);
    (GET, "/health", health);
    (GET, "/mcp", mcp_get);
    (DELETE, "/mcp", mcp_delete) ].

Definition verb_eqb (a b : Verb) : bool :=
  match a, b with
  | GET, GET | POST, POST | PUT, PUT | DELETE, DELETE | PATCH, PATCH => true
  | _, _ => false
  end.

Definition run_handler (transport : TransportOutcome) (h : Handler) : Response :=
  match h with
  | mcp_post =>
      match transport with
      | Handled r => r
      | Threw (Some sent) => sent
      | Threw None => jsonrpc_error 500 (-32603) "Internal server error"
      end
  | health =>
      {| status := 200;
         body := JObj [("status", JStr "ok"); ("service", JStr "boilerplate-context-mcp")] |}
  | mcp_get => jsonrpc_error 405 (-32000) "Method not allowed. Use POST."
  | mcp_delete => jsonrpc_error 405 (-32000) "Method not allowed."
  end.

(** A request as the application receives it. *)
Record Request := {
  method : Verb;
  path : string;
  headers : list (string * string);
  payload : string
}.

(** What the application made by [createMcpExpressApp()] does with a
    request before any route: the middleware it installs (the JSON body
    parser, the validation of the Host header) answers some requests
    itself, a request with a foreign host for one, and passes the others
    on ([None]). *)
Definition Middleware : Type := Request -> option Response.

(** A route path matches as the framework matches it: without regard
    to the case of letters, and with or without one separator at the
    end. *)
Definition same_path (route p : string) : bool :=
  let q := JS.ascii_toLowerCase p in
  let r := JS.ascii_toLowerCase route in
  String.eqb q r || String.eqb q (r +:+ "/").

(** The first route registered for the verb and matching the path;
    [None] when the application registers none and the request is left
    to the framework. *)
Fixpoint find_route (rs : list (Verb * string * Handler)) (v : Verb) (p : string)
    : option Handler :=
  match rs with
  | [] => None
  | (v', p', h) :: rest =>
      if verb_eqb v v' && same_path p' p then Some h else find_route rest v p
  end.

(** The answer to a request: that of the middleware in front when it
    gives one, else that of the route. *)
Definition respond (front : Middleware) (transport : TransportOutcome) (req : Request)
    : option Response :=
  match front req with
  | Some r => Some r
  | None => run_handler transport <$> find_route routes (method req) (path req)
  end.

(** Reading a JSON-RPC error body: [body.error.code]. *)
Fixpoint field (name : string) (fields : list (string * json)) : option json :=
  match fields with
  | [] => None
  | (k, v) :: rest => if String.eqb k name then Some v else field name rest
  end.

Definition member (name : string) (j : json) : option json :=
  match j with
  | JObj fields => field name fields
  | _ => None
  end.

Definition error_code (b : json) : option Z :=
  match member "error" b ≫= member "code" with
  | Some (JNum z) => Some z
  | _ => None
  end.

End App.

(** ** Overlapping [ensureRepo] calls

    Requests are served on one event loop: a call runs until it awaits,
    and git commands are child processes that run while other calls
    proceed.  Every simple-git instance owns a scheduler that starts a
    queued command only while fewer than its [maxConcurrentProcesses]
    commands of that instance are running. *)
Module Concurrency.

Inductive GitOp := Clone | Pull.

(** The instance a command is queued on: the one [repoTools] creates
    with [maxConcurrentProcesses: 1], or the one a call of [ensureRepo]
    creates by [simpleGit(dir)] for its pull. *)
Inductive Instance := Shared | Own (call : nat).

(** The library's default for an instance created without options; the
    instance of a pull holds that one command, so any positive value
    gives the same runs. *)
Definition defaultMaxConcurrentProcesses : nat := 5.

Definition maxConcurrentProcesses (i : Instance) : nat :=
  match i with
  | Shared => 1
  | Own _ => defaultMaxConcurrentProcesses
  end.

(** Where a call of [ensureRepo] is. *)
Inductive Pc :=
| AtAccess
| Queued (i : Instance) (op : GitOp)
| Running (i : Instance) (op : GitOp)
| Finished.

Record State := {
  dir_exists : bool;
  pcs : list Pc
}.

Definition instance_eqb (a b : Instance) : bool :=
  match a, b with
  | Shared, Shared => true
  | Own x, Own y => Nat.eqb x y
  | _, _ => false
  end.

Definition runs_on (i : Instance) (p : Pc) : bool :=
  match p with
  | Running j _ => instance_eqb i j
  | _ => false
  end.

Definition is_running (p : Pc) : bool :=
  match p with
  | Running _ _ => true
  | _ => false
  end.

Fixpoint count (P : Pc -> bool) (l : list Pc) : nat :=
  match l with
  | [] => 0
  | p :: l' => (if P p then 1 else 0) + count P l'
  end.

(** Commands of instance [i] that are running. *)
Definition running_on (i : Instance) (st : State) : nat :=
  count (runs_on i) (pcs st).

(** Git commands running on the working copy, whatever the instance. *)
Definition git_running (st : State) : nat :=
  count is_running (pcs st).

(** The next step of call [k], when it can take one. *)
Definition step (k : nat) (st : State) : option State :=
  match pcs st !! k with
  | Some AtAccess =>
      let next := if dir_exists st then Queued (Own k) Pull else Queued Shared Clone in
      Some {| dir_exists := dir_exists st; pcs := <[k := next]> (pcs st) |}
  | Some (Queued i op) =>
      if (running_on i st <? maxConcurrentProcesses i)%nat then
        Some {| dir_exists := match op with Clone => true | Pull => dir_exists st end;
                pcs := <[k := Running i op]> (pcs st) |}
      else None
  | Some (Running i op) =>
      Some {| dir_exists := dir_exists st; pcs := <[k := Finished]> (pcs st) |}
  | Some Finished | None => None
  end.

(** A schedule names the call that moves at each step. *)
Fixpoint run (schedule : list nat) (st : State) : option State :=
  match schedule with
  | [] => Some st
  | k :: rest =>
      match step k st with
      | Some st' => run rest st'
      | None => None
      end
  end.

(** [n] calls of [ensureRepo] that have just been made. *)
Definition calls_made (n : nat) (present : bool) : State :=
  {| dir_exists := present; pcs := replicate n AtAccess |}.

End Concurrency.

(** ** The search as the specification words it *)
Module SearchSpec.
Import JS.

(** A search result: the 1-based line number and the context block. *)
Record Match := {
  lineNumber : nat;
  contextBlock : string
}.

(** The text the tool shows for a result. *)
Definition show (m : Match) : string :=
  nl +:+ "--- Line " +:+ num (lineNumber m) +:+ " ---" +:+ nl +:+ contextBlock m +:+ nl.

(** Up to two lines before line [n], the line, up to two lines after. *)
Definition lines_before (lines : list string) (n : nat) : list string :=
  drop (n - 1 - 2) (take (n - 1) lines).

Definition lines_after (lines : list string) (n : nat) : list string :=
  take 2 (drop n lines).

Definition window (lines : list string) (n : nat) : list string :=
  lines_before lines n ++ default "" (lines !! (n - 1)) :: lines_after lines n.

(** The 0-based positions, from [index] on, of the lines that match. *)
Fixpoint matching_from (toLowerCase : string -> string) (queryLower : string)
    (lines : list string) (index : nat) : list nat :=
  match lines with
  | [] => []
  | line :: rest =>
      if includes (toLowerCase line) queryLower
      then index :: matching_from toLowerCase queryLower rest (S index)
      else matching_from toLowerCase queryLower rest (S index)
  end.

Definition search (toLowerCase : string -> string) (documentText query : string)
    : list Match :=
  let lines := split_lines documentText in
  map (fun i => {| lineNumber := i + 1; contextBlock := join nl (window lines (i + 1)) |})
      (matching_from toLowerCase (toLowerCase query) lines 0).

End SearchSpec.

(** The document of the specification's search example. *)
Definition example_document : string :=
  "alpha" +:+ JS.nl +:+ "beta" +:+ JS.nl +:+ "GAMMA" +:+ JS.nl +:+ "delta" +:+ JS.nl.

(** ** The directory listing as the specification words it *)
Module ListingSpec.
Import JS World Repository.

(** An entry of the listing: its relative path and, for a directory, the
    entries [readdir] gives for it. *)
Record Listed := {
  relativePath : string;
  subtree : option (list (string * node))
}.

(** The string of the sequence: directories carry the separator. *)
Definition render (l : Listed) : string :=
  match subtree l with
  | Some _ => relativePath l +:+ "/"
  | None => relativePath l
  end.

(** Depth-first preorder of the entries that are not skipped: a
    directory, then what is below it, then the entries after it. *)
Fixpoint walk (n : node) (prefix : string) : list Listed :=
  match n with
  | Dir entries =>
      flat_map (fun entry : string * node =>
        let (name, child) := entry in
        if skipped name then []
        else
          let rel := path_join2 prefix name in
          match child with
          | Dir kids => {| relativePath := rel; subtree := Some kids |} :: walk child rel
          | _ => [ {| relativePath := rel; subtree := None |} ]
          end) entries
  | _ => []
  end.

(** A name that is neither hidden nor the dependency directory. *)
Definition shown (c : string) : Prop :=
  String.prefix "." c = false /\ c <> "node_modules".

(** The last unit of a string. *)
Fixpoint last_unit (s : string) : option ascii :=
  match s with
  | "" => None
  | String c "" => Some c
  | String _ s' => last_unit s'
  end.

Fixpoint has_unit (c : ascii) (s : string) : bool :=
  match s with
  | "" => false
  | String x s' => Ascii.eqb x c || has_unit c s'
  end.

(** Entry names of a file system: not empty, without a separator. *)
Definition valid_name (name : string) : bool :=
  negb (String.eqb name "") && negb (has_unit "/"%char name).

Fixpoint valid_names (n : node) : bool :=
  match n with
  | Dir entries =>
      forallb (fun entry : string * node =>
                 let (name, child) := entry in valid_name name && valid_names child)
              entries
  | _ => true
  end.

End ListingSpec.

(** A small working copy: two platforms, a hidden directory, a
    dependency directory and a nested source tree. *)
Definition example_repo : World.node :=
  World.Dir
    [ ("backend",
       World.Dir
         [ (".git", World.Dir [ ("HEAD", World.File "ref") ]);
           ("src", World.Dir [ ("index.ts", World.File "export {}");
                               ("utils", World.Dir [ ("a.ts", World.File "a") ]) ]);
           ("node_modules", World.Dir [ ("x", World.Dir []) ]);
           ("AGENTS.md", World.File "backend rules");
           (".env", World.File "SECRET") ]);
      ("frontend", World.Dir [ ("AGENTS.md", World.File "frontend rules") ]) ].

Definition example_config : Config.config :=
  Config.make_config None (Some "https://example.org/repo.git") (Some "repo") None.

Definition example_world : World.World :=
  {| World.repo := Some example_repo; World.console := []; World.calls := [] |}.

(** A remote whose pull fails and leaves the working copy as it was, and
    one whose pull succeeds without changes. *)
Definition git_offline : World.Git :=
  {| World.clone := inl (World.GitError "unable to access remote");
     World.pull := fun tree => (tree, Some (World.GitError "unable to access remote")) |}.

Definition git_online : World.Git :=
  {| World.clone := inr example_repo;
     World.pull := fun tree => (tree, None) |}.


(** The calls [ensureRepo] makes, as against the reads of the working
    copy. *)
Definition is_ensure_call (c : World.IO) : bool :=
  match c with
  | World.fs_access _ | World.git_clone _ _ | World.git_pull _ => true
  | World.fs_readdir _ | World.fs_readFile _ => false
  end.

(** Two middlewares to run the routes behind: one that passes every
    request on, and one that refuses with status 403 every request whose
    Host header is not the local one. *)
Definition pass_all : App.Middleware := fun _ => None.

Definition local_host_only : App.Middleware :=
  fun req =>
    match List.find (fun h : string * string => String.eqb h.1 "host") (App.headers req) with
    | Some (_, "localhost:3000") => None
    | _ => Some (App.jsonrpc_error 403 (-32000) "Invalid Host header")
    end.

(** The configuration of the specification's end-to-end scenario. *)
Definition two_platform_config : Config.config :=
  {| Config.port := 3000;
     Config.repoUrl := "https://example.org/repo.git";
     Config.repoDir := "repo";
     Config.boilerplateDir := "";
     Config.platforms := [Config.BACKEND; Config.FRONTEND] |}.


(** ** [index]: starting the server *)
Module Startup.
Import JS Config World.

(** How [startServer] leaves: the process has exited, or the application
    listens (the port is taken to be free). *)
Inductive StartOutcome :=
| Exited (code : nat)
| Listening (on_port : nat).

(** [!s] for a string: the empty string only. *)
Definition falsy (s : string) : bool := String.eqb s "".

Definition listening_lines (p : nat) : list string :=
  [ "Boilerplate Context MCP Server listening on port " +:+ num p;
    "Health check: http://localhost:" +:+ num p +:+ "/health";
    "MCP endpoint: http://localhost:" +:+ num p +:+ "/mcp" ].

Definition startServer (cfg : config) (git : Git) (w : World) : World * StartOutcome :=
  if falsy (repoUrl cfg) || falsy (repoDir cfg) then
    (print "Repository URL and directory must be specified in the configuration." w,
     Exited 1)
  else
    (* getMcpServer: repoTools, then the registrations; createApp *)
    match Repository.repoTools (repoUrl cfg) (repoDir cfg) git w with
    | (w', Some code) => (w', Exited code)
    | (w', None) =>
        (foldl (fun acc line => print line acc) w' (listening_lines (port cfg)),
         Listening (port cfg))
    end.

End Startup.

(** ** [schemas]: the input schemas of the tools *)
Module Schemas.
Import Config App.

(** [z.enum(config.platforms)]: a string that is the value of one of the
    configured platforms. *)
Definition parse_platform (cfg : config) (j : json) : option PLATFORMS :=
  match j with
  | JStr s => List.find (fun p => String.eqb (platform_value p) s) (platforms cfg)
  | _ => None
  end.

(** [z.string()] *)
Definition parse_string (j : json) : option string :=
  match j with
  | JStr s => Some s
  | _ => None
  end.

(** The schemas parse an object (its keys taken as distinct); keys they
    do not name are dropped. *)
Definition GET_BOILERPLATE_STRUCTURE_SCHEMA (cfg : config) (input : json)
    : option PLATFORMS :=
  member "platform" input ≫= parse_platform cfg.

Definition SEARCH_BEST_PRACTICES_SCHEMA (cfg : config) (input : json)
    : option (PLATFORMS * string) :=
  platform ← GET_BOILERPLATE_STRUCTURE_SCHEMA cfg input;
  query ← member "query" input ≫= parse_string;
  Some (platform, query).

Definition GET_ALL_CONTEXTS_SCHEMA (input : json) : option unit :=
  match input with
  | JObj _ => Some tt
  | _ => None
  end.

End Schemas.

(** ** The directories a traversal reads *)
Module ReadSpec.
Import JS World Repository.

(** The directory itself, then, entry by entry, the directories below
    that are not skipped. *)
Fixpoint read_dirs (n : node) (dir : string) : list string :=
  dir ::
  match n with
  | Dir entries =>
      flat_map (fun entry : string * node =>
        let (name, child) := entry in
        if skipped name then []
        else match child with
             | Dir _ => read_dirs child (path_join2 dir name)
             | _ => []
             end) entries
  | _ => []
  end.

(** The world once the directories [ds] have been announced and read. *)
Definition after_reading (ds : list string) (w : World) : World :=
  {| repo := repo w;
     console := console w ++ map (fun d => "Reading directory: " +:+ d) ds;
     calls := calls w ++ map fs_readdir ds |}.

(** The entries of a listing that are directories. *)
Definition directories (items : list ListingSpec.Listed) : list ListingSpec.Listed :=
  List.filter (fun item => match ListingSpec.subtree item with
                           | Some _ => true
                           | None => false
                           end) items.

End ReadSpec.


(** ** Steps a call of [ensureRepo] still has to take *)
Module ConcurrencySpec.
Import Concurrency.

(** Testing the directory, starting the git command, ending it. *)
Definition steps_left (p : Pc) : nat :=
  match p with
  | AtAccess => 3
  | Queued _ _ => 2
  | Running _ _ => 1
  | Finished => 0
  end.

Fixpoint total (f : Pc -> nat) (l : list Pc) : nat :=
  match l with
  | [] => 0
  | p :: l' => f p + total f l'
  end.

(** A call that is about to clone or is cloning. *)
Definition clones (p : Pc) : bool :=
  match p with
  | Queued _ Clone | Running _ Clone => true
  | _ => false
  end.

End ConcurrencySpec.


(* ===================================================================== *)
(** * Properties *)
(* ===================================================================== *)

Module JSFacts.
Import JS.

Lemma append_nil (b : string) : "" +:+ b = b.
Proof. reflexivity. Qed.

Lemma append_cons c (a b : string) : String c a +:+ b = String c (a +:+ b).
Proof. reflexivity. Qed.

Lemma prefix_refl s : String.prefix s s = true.
Proof. induction s as [|c s IH]; simpl; [done|]. by destruct (ascii_dec c c). Qed.

Lemma includes_refl s : includes s s = true.
Proof. destruct s; simpl; [done|]. rewrite (prefix_refl (String _ _)) || idtac.
  destruct (ascii_dec a a); [|done]. by rewrite prefix_refl. Qed.

Lemma includes_empty s : includes s "" = true.
Proof. by destruct s. Qed.

Lemma split_nonempty sep s : split sep s <> [].
Proof.
  destruct s as [|c s]; simpl; [done|].
  destruct (Ascii.eqb c sep); [done|]. by destruct (split sep s).
Qed.

Lemma split_app sep a b :
  split sep (a +:+ String sep b) = split sep a ++ split sep b.
Proof.
  induction a as [|c a IH]; simpl.
  - by rewrite Ascii.eqb_refl.
  - destruct (Ascii.eqb c sep); [by rewrite IH|].
    rewrite IH. pose proof (split_nonempty sep a).
    by destruct (split sep a).
Qed.

Lemma split_lines_snoc s : split_lines (s +:+ nl) = split_lines s ++ [""].
Proof. apply (split_app LF s ""). Qed.

Lemma slice_window (lines : list string) (i : nat) line :
  lines !! i = Some line ->
  slice lines (Z.max 0 (Z.of_nat i - 2)) (Z.min (Z.of_nat (length lines)) (Z.of_nat i + 3))
  = drop (i - 2) (take i lines) ++ line :: take 2 (drop (S i) lines).
Proof.
  intros Hi. pose proof (lookup_lt_Some _ _ _ Hi) as Hlt.
  unfold slice.
  assert (Hs : (Z.max 0 (Z.of_nat i - 2) <? 0)%Z = false) by lia.
  assert (He : (Z.min (Z.of_nat (length lines)) (Z.of_nat i + 3) <? 0)%Z = false) by lia.
  rewrite Hs, He.
  replace (Z.to_nat (Z.min (Z.max 0 (Z.of_nat i - 2)) (Z.of_nat (length lines))))
    with (i - 2) by lia.
  replace (Z.to_nat _) with (Nat.min (length lines) (i + 3) - (i - 2)) by lia.
  rewrite <- (take_drop i lines) at 2.
  rewrite drop_app_le by (rewrite length_take; lia).
  rewrite (drop_S _ _ _ Hi).
  rewrite take_app_ge by (rewrite length_drop, length_take; lia).
  f_equal.
  rewrite length_drop, length_take.
  replace (Nat.min (length lines) (i + 3) - (i - 2) - (Nat.min i (length lines) - (i - 2)))
    with (S (Nat.min 2 (length lines - S i))) by lia.
  rewrite firstn_cons. f_equal.
  rewrite <- take_take.
  by rewrite (take_ge (drop (S i) lines)) by (rewrite length_drop; lia).
Qed.

End JSFacts.

Module SearchFacts.
Import JS Search SearchSpec JSFacts.

Section WithLowerCase.

Variable toLowerCase : string -> string.

Lemma match_entry_show (lines : list string) i line :
  lines !! i = Some line ->
  match_entry lines i
  = show {| lineNumber := i + 1; contextBlock := join nl (window lines (i + 1)) |}.
Proof.
  intros Hi. unfold match_entry, show, window, lines_before, lines_after; simpl.
  rewrite (slice_window _ _ _ Hi).
  replace (i + 1 - 1) with i by lia. replace (i + 1) with (S i) by lia.
  by rewrite Hi.
Qed.

(** The loop pushes, in order, one entry per matching line. *)
Lemma forEach_from_search (all : list string) q :
  forall (rest : list string) index matches,
    (forall j l, rest !! j = Some l -> all !! (index + j) = Some l) ->
    forEach_from (search_body toLowerCase all q) rest index matches
    = matches ++
      map (fun i => show {| lineNumber := i + 1;
                            contextBlock := join nl (window all (i + 1)) |})
          (matching_from toLowerCase q rest index).
Proof.
  induction rest as [|line rest IH]; intros index matches Hall; simpl.
  - by rewrite app_nil_r.
  - assert (Hrest : forall j l, rest !! j = Some l -> all !! (S index + j) = Some l).
    { intros j l Hj. replace (S index + j) with (index + S j) by lia. by apply Hall. }
    unfold search_body at 2.
    destruct (includes (toLowerCase line) q); simpl.
    + rewrite IH by done. unfold push. rewrite <- app_assoc. simpl.
      rewrite (match_entry_show all index line); [done|].
      specialize (Hall 0 line eq_refl). by rewrite Nat.add_0_r in Hall.
    + by rewrite IH.
Qed.

Lemma search_matches_show content query :
  search_matches toLowerCase content query = map show (search toLowerCase content query).
Proof.
  unfold search_matches, search, forEach.
  rewrite forEach_from_search by (intros j l Hj; exact Hj).
  simpl. by rewrite map_map.
Qed.

Lemma matching_from_lookup q :
  forall (rest : list string) index i,
    i ∈ matching_from toLowerCase q rest index <->
    index <= i /\ exists line, rest !! (i - index) = Some line
                               /\ includes (toLowerCase line) q = true.
Proof.
  induction rest as [|line rest IH]; intros index i; simpl.
  - split; [by intros ?%elem_of_nil | by intros (_ & l & ? & _)].
  - assert (Hcons : i ∈ matching_from toLowerCase q rest (S index) <->
                    S index <= i /\ exists l, (line :: rest) !! (i - index) = Some l
                                              /\ includes (toLowerCase l) q = true).
    { rewrite IH. split.
      - intros (Hle & l & Hl & Hm). split; [done|]. exists l. split; [|done].
        replace (i - index) with (S (i - S index)) by lia. done.
      - intros (Hle & l & Hl & Hm). split; [done|]. exists l. split; [|done].
        replace (i - index) with (S (i - S index)) in Hl by lia. done. }
    destruct (includes (toLowerCase line) q) eqn:Hm.
    + rewrite elem_of_cons, Hcons. split.
      * intros [->|(Hle & Hex)]; [|split; [lia|done]].
        split; [done|]. exists line. by rewrite Nat.sub_diag.
      * intros (Hle & l & Hl & Hml).
        destruct (decide (i = index)) as [->|Hne]; [by left|right].
        split; [lia|]. by exists l.
    + rewrite Hcons. split.
      * intros (Hle & Hex). split; [lia|done].
      * intros (Hle & l & Hl & Hml).
        destruct (decide (i = index)) as [->|Hne].
        -- rewrite Nat.sub_diag in Hl. simpl in Hl. congruence.
        -- split; [lia|]. by exists l.
Qed.

Lemma matching_from_sorted q :
  forall (rest : list string) index,
    StronglySorted lt (matching_from toLowerCase q rest index).
Proof.
  induction rest as [|line rest IH]; intros index; simpl; [constructor|].
  destruct (includes (toLowerCase line) q); [|apply IH].
  constructor; [apply IH|].
  apply Forall_forall. intros i Hi. apply matching_from_lookup in Hi. lia.
Qed.

Lemma matching_from_all q :
  forall (rest : list string) index,
    (forall line, line ∈ rest -> includes (toLowerCase line) q = true) ->
    matching_from toLowerCase q rest index = seq index (length rest).
Proof.
  induction rest as [|line rest IH]; intros index Hall; simpl; [done|].
  rewrite Hall by (left).
  f_equal. apply IH. intros l Hl. apply Hall. by (right).
Qed.

End WithLowerCase.

(** The window of a line of the document: a run of consecutive lines
    around it, two on each side unless the document ends there. *)
Lemma window_clipped (lines : list string) n line :
  1 <= n -> lines !! (n - 1) = Some line ->
  exists pre post,
    lines = pre ++ lines_before lines n ++ line :: lines_after lines n ++ post
    /\ length (pre ++ lines_before lines n) = n - 1
    /\ (length (lines_before lines n) = 2 \/ pre = [] /\ length (lines_before lines n) < 2)
    /\ (length (lines_after lines n) = 2 \/ post = [] /\ length (lines_after lines n) < 2).
Proof.
  intros Hn Hl. pose proof (lookup_lt_Some _ _ _ Hl) as Hlt.
  exists (take (n - 1 - 2) lines), (drop (n + 2) lines).
  unfold lines_before, lines_after.
  assert (Hpre : take (n - 1 - 2) lines ++ drop (n - 1 - 2) (take (n - 1) lines)
                 = take (n - 1) lines).
  { rewrite <- (take_drop (n - 1 - 2) (take (n - 1) lines)) at 2.
    f_equal. rewrite take_take. f_equal. lia. }
  split; [|split; [|split]].
  - rewrite app_assoc, Hpre.
    rewrite <- (take_drop_middle lines (n - 1) line Hl) at 1.
    f_equal. f_equal. replace (S (n - 1)) with n by lia.
    rewrite <- (take_drop 2 (drop n lines)) at 1. f_equal.
    rewrite drop_drop. f_equal.
  - rewrite Hpre, length_take. lia.
  - rewrite length_drop, length_take.
    destruct (decide (2 <= n - 1)); [left; lia|right].
    split; [|lia]. by replace (n - 1 - 2) with 0 by lia.
  - rewrite length_take, length_drop.
    destruct (decide (2 <= length lines - n)); [left; lia|right].
    split; [|lia]. apply drop_ge. lia.
Qed.

End SearchFacts.

Module SearchClaims.
Import JS Search SearchSpec JSFacts SearchFacts.

Lemma search_line_numbers toLowerCase documentText query n :
  n ∈ map lineNumber (search toLowerCase documentText query) <->
  1 <= n /\ exists line, split_lines documentText !! (n - 1) = Some line
                         /\ includes (toLowerCase line) (toLowerCase query) = true.
Proof.
  unfold search. rewrite map_map. simpl. rewrite list_elem_of_fmap. split.
  - intros (i & -> & Hi). apply matching_from_lookup in Hi as (_ & line & Hl & Hm).
    split; [lia|]. exists line. split; [|done].
    by replace (i + 1 - 1) with (i - 0) by lia.
  - intros (Hn & line & Hl & Hm). exists (n - 1). split; [lia|].
    apply matching_from_lookup. split; [lia|]. exists line.
    by replace (n - 1 - 0) with (n - 1) by lia.
Qed.

Lemma search_result_window toLowerCase documentText query m :
  m ∈ search toLowerCase documentText query ->
  1 <= lineNumber m
  /\ is_Some (split_lines documentText !! (lineNumber m - 1))
  /\ contextBlock m = join nl (window (split_lines documentText) (lineNumber m)).
Proof.
  unfold search. rewrite list_elem_of_fmap. intros (i & -> & Hi). simpl.
  apply matching_from_lookup in Hi as (_ & line & Hl & _).
  split; [lia|]. split; [|done]. exists line.
  by replace (i + 1 - 1) with (i - 0) by lia.
Qed.

Lemma sorted_succ (l : list nat) :
  StronglySorted lt l -> StronglySorted lt (map (fun i => i + 1) l).
Proof.
  induction 1 as [|i l Hs IH Hall]; simpl; constructor; [done|].
  apply Forall_fmap. eapply Forall_impl; [exact Hall|]. simpl. lia.
Qed.

(** C3: for every document text and query, the search reports exactly one
    result per line whose lowercased form contains the lowercased query;
    a result carries the 1-based number of its line and the block of up
    to two lines before and up to two lines after it, cut where the
    document begins or ends; results come in ascending line order, each
    with its own full block; the empty query gives one result per line. *)
Theorem search_reports_every_matching_line
    (toLowerCase : string -> string) (documentText query : string) :
  let lines := split_lines documentText in
  let results := search toLowerCase documentText query in
  search_matches toLowerCase documentText query = map show results
  /\ StronglySorted lt (map lineNumber results)
  /\ (forall n, n ∈ map lineNumber results <->
        1 <= n /\ exists line, lines !! (n - 1) = Some line
                    /\ includes (toLowerCase line) (toLowerCase query) = true)
  /\ (forall m, m ∈ results ->
        exists line pre before after post,
          lines !! (lineNumber m - 1) = Some line
          /\ contextBlock m = join nl (before ++ line :: after)
          /\ lines = pre ++ before ++ line :: after ++ post
          /\ length (pre ++ before) = lineNumber m - 1
          /\ (length before = 2 \/ pre = [] /\ length before < 2)
          /\ (length after = 2 \/ post = [] /\ length after < 2))
  /\ (toLowerCase "" = "" -> query = "" ->
        map lineNumber results = seq 1 (length lines)).
Proof.
  intros lines results. split; [apply search_matches_show|].
  split; [|split; [|split]].
  - unfold results, search. rewrite map_map. simpl.
    apply sorted_succ, matching_from_sorted.
  - apply search_line_numbers.
  - intros m Hm. apply search_result_window in Hm as (Hn & [line Hl] & Hctx).
    destruct (window_clipped lines (lineNumber m) line Hn Hl)
      as (pre & post & Hsplit & Hlen & Hb & Ha).
    exists line, pre, (lines_before lines (lineNumber m)),
      (lines_after lines (lineNumber m)), post.
    split; [done|]. split; [|done].
    rewrite Hctx. unfold window. fold lines.
    replace (lines !! (lineNumber m - 1)) with (Some line). done.
  - intros Hlow ->. unfold results, search. rewrite map_map. simpl.
    rewrite matching_from_all.
    + fold lines. rewrite <- (fmap_S_seq 0). rewrite <- list_fmap_compose || idtac.
      apply list_fmap_ext. intros ? i _. simpl. lia.
    + intros line _. rewrite Hlow. apply includes_empty.
Qed.

Lemma search_reports_every_matching_line_witness :
  map lineNumber (search ascii_toLowerCase example_document "") = [1; 2; 3; 4; 5].
Proof.
  exact (proj2 (proj2 (proj2 (proj2
    (search_reports_every_matching_line ascii_toLowerCase example_document ""))))
    eq_refl eq_refl).
Defined.

(** On the example document the block of the match holds a fifth line,
    the empty one after the last line feed; it is not the join of lines
    1 to 4. *)
Lemma example_context_reaches_line_5 :
  search_matches ascii_toLowerCase example_document "gamma"
  <> [show {| lineNumber := 3;
              contextBlock := join nl ["alpha"; "beta"; "GAMMA"; "delta"] |}]
  /\ search ascii_toLowerCase example_document "gamma"
     <> [{| lineNumber := 3;
            contextBlock := join nl ["alpha"; "beta"; "GAMMA"; "delta"] |}].
Proof. split; vm_compute; discriminate. Qed.

(** C4 (amended): for the text "alpha\nbeta\nGAMMA\ndelta\n" and the query
    "gamma" the search reports exactly one match, at line 3; its block is
    lines 1 to 5 joined in order, line 5 being the empty line after the
    last line feed, so the block is the whole text. *)
Theorem example_search_one_match_lines_1_to_5 (toLowerCase : string -> string) :
  (forall s, ascii_only s = true -> toLowerCase s = ascii_toLowerCase s) ->
  split_lines example_document = ["alpha"; "beta"; "GAMMA"; "delta"; ""]
  /\ search_matches toLowerCase example_document "gamma"
     = [show {| lineNumber := 3;
                contextBlock := join nl ["alpha"; "beta"; "GAMMA"; "delta"; ""] |}]
  /\ search toLowerCase example_document "gamma"
     = [{| lineNumber := 3;
           contextBlock := join nl ["alpha"; "beta"; "GAMMA"; "delta"; ""] |}]
  /\ join nl ["alpha"; "beta"; "GAMMA"; "delta"; ""] = example_document.
Proof.
  intros Hlow. split; [reflexivity|].
  assert (Hs : search toLowerCase example_document "gamma"
               = [{| lineNumber := 3;
                     contextBlock := join nl ["alpha"; "beta"; "GAMMA"; "delta"; ""] |}]).
  { unfold search.
    change (split_lines example_document) with ["alpha"; "beta"; "GAMMA"; "delta"; ""].
    cbn [matching_from].
    rewrite !Hlow by reflexivity. reflexivity. }
  split; [|split; [exact Hs|reflexivity]].
  rewrite search_matches_show, Hs. reflexivity.
Qed.

Lemma example_search_one_match_lines_1_to_5_witness :
  search_matches ascii_toLowerCase example_document "gamma"
  = [show {| lineNumber := 3; contextBlock := example_document |}].
Proof.
  destruct (example_search_one_match_lines_1_to_5 ascii_toLowerCase (fun s _ => eq_refl))
    as (_ & Hm & _ & Hj).
  rewrite Hm. reflexivity.
Defined.

Lemma window_to_end (lines : list string) n line :
  1 <= n -> lines !! (n - 1) = Some line -> length lines <= n + 2 ->
  window lines n = drop (n - 1 - 2) lines.
Proof.
  intros Hn Hl Hend. pose proof (lookup_lt_Some _ _ _ Hl) as Hlt.
  unfold window, lines_before, lines_after. rewrite Hl. simpl.
  rewrite (take_ge (drop n lines)) by (rewrite length_drop; lia).
  rewrite <- (take_drop_middle lines (n - 1) line Hl) at 3.
  rewrite drop_app_le by (rewrite length_take; lia).
  by replace (S (n - 1)) with n by lia.
Qed.

(** C10: the lines of a text that ends with a line feed are the lines of
    the text before it and one more, empty, line: this line has a number
    of its own, the empty query reports it, and the block of every match
    whose range reaches the end of the lines ends with it. *)
Theorem trailing_newline_is_an_empty_line
    (toLowerCase : string -> string) (s query : string) :
  let documentText := s +:+ nl in
  let lines := split_lines documentText in
  let last_number := length (split_lines s) + 1 in
  lines = split_lines s ++ [""]
  /\ lines !! (last_number - 1) = Some "" /\ length lines = last_number
  /\ search_matches toLowerCase documentText "" =
       map show (search toLowerCase documentText "")
  /\ last_number ∈ map lineNumber (search toLowerCase documentText "")
  /\ search_matches toLowerCase documentText query =
       map show (search toLowerCase documentText query)
  /\ (forall m, m ∈ search toLowerCase documentText query ->
        last_number <= lineNumber m + 2 ->
        exists block, drop (lineNumber m - 1 - 2) lines = block ++ [""]
                      /\ contextBlock m = join nl (block ++ [""])).
Proof.
  intros documentText lines last_number.
  assert (Hlines : lines = split_lines s ++ [""]) by apply split_lines_snoc.
  assert (Hlen : length lines = last_number).
  { rewrite Hlines, length_app. reflexivity. }
  assert (Hlast : lines !! (last_number - 1) = Some "").
  { rewrite Hlines. unfold last_number.
    replace (length (split_lines s) + 1 - 1) with (length (split_lines s) + 0) by lia.
    by rewrite lookup_app_r, Nat.add_sub' by lia. }
  split; [done|]. split; [done|]. split; [done|].
  split; [apply search_matches_show|]. split.
  { apply search_line_numbers. split; [unfold last_number; lia|].
    exists "". split; [exact Hlast|]. apply includes_refl. }
  split; [apply search_matches_show|].
  intros m Hm Hend. apply search_result_window in Hm as (Hn & [line Hl] & Hctx).
  fold lines in Hl, Hctx.
  pose proof (lookup_lt_Some _ _ _ Hl) as Hlt.
  rewrite Hctx, (window_to_end lines (lineNumber m) line) by (done || lia).
  exists (drop (lineNumber m - 1 - 2) (split_lines s)).
  assert (Hd : drop (lineNumber m - 1 - 2) lines
               = drop (lineNumber m - 1 - 2) (split_lines s) ++ [""]).
  { rewrite Hlines. apply drop_app_le. rewrite Hlines, length_app in Hlt. simpl in Hlt. lia. }
  by rewrite Hd.
Qed.

Lemma trailing_newline_is_an_empty_line_witness :
  exists block, drop 0 (split_lines example_document) = block ++ [""]
                /\ join nl (window (split_lines example_document) 3) = join nl (block ++ [""]).
Proof.
  destruct (trailing_newline_is_an_empty_line ascii_toLowerCase
              ("alpha" +:+ nl +:+ "beta" +:+ nl +:+ "GAMMA" +:+ nl +:+ "delta") "gamma")
    as (_ & _ & _ & _ & _ & _ & H).
  exact (H {| lineNumber := 3;
              contextBlock := join nl (window (split_lines example_document) 3) |}
           ltac:(vm_compute; left) ltac:(vm_compute; lia)).
Defined.

End SearchClaims.
Module ListingFacts.
Import JS Config World Repository ListingSpec JSFacts.

(** Induction on a tree with the hypothesis for every entry of a
    directory. *)
Lemma node_nested_ind (P : node -> Prop) :
  (forall text, P (File text)) ->
  P Unreadable ->
  (forall entries, Forall (fun e : string * node => P e.2) entries -> P (Dir entries)) ->
  forall n, P n.
Proof.
  intros HF HU HD.
  refine (fix IH (n : node) : P n :=
            match n with
            | File text => HF text
            | Unreadable => HU
            | Dir entries =>
                HD entries
                   ((fix go (es : list (string * node))
                       : Forall (fun e : string * node => P e.2) es :=
                       match es with
                       | [] => List.Forall_nil _
                       | e :: es' => List.Forall_cons _ e es' (IH e.2) (go es')
                       end) entries)
            end).
Qed.

Lemma for_of_cons {A St} (body : A -> St -> M St) x xs st :
  for_of body (x :: xs) st = bind (body x st) (for_of body xs).
Proof. reflexivity. Qed.

(** The run of [traverse] on a directory: it never rejects, leaves the
    working copy alone, calls nothing but [readdir] and appends the
    preorder listing to [files]. *)
Lemma traverse_walk (n : node) :
  forall entries, n = Dir entries ->
  forall dir prefix files w,
    exists w' dirs,
      traverse n dir prefix files w
      = (w', inr (files ++ map render (walk n prefix)))
      /\ repo w' = repo w
      /\ calls w' = calls w ++ map fs_readdir dirs.
Proof.
  induction n as [text| |entries IH] using node_nested_ind; intros es [=<-].
  intros dir prefix files w.
  cbn [traverse walk]. unfold bind at 1 2. cbn [effect].
  set (w0 := call (fs_readdir dir) (print ("Reading directory: " +:+ dir) w)).
  assert (Hw0 : repo w0 = repo w) by reflexivity.
  assert (Hc0 : calls w0 = calls w ++ map fs_readdir [dir]) by reflexivity.
  rewrite <- Hw0.
  enough (exists w' dirs,
            for_of (fun (entry : string * node) (files0 : list string) =>
                      let (name, child) := entry in
                      if skipped name then ret files0
                      else match child with
                           | Dir _ =>
                               traverse child (path_join2 dir name) (path_join2 prefix name)
                                 (push files0 (path_join2 prefix name +:+ "/"))
                           | _ => ret (push files0 (path_join2 prefix name))
                           end) entries files w0
            = (w', inr (files ++ map render (walk (Dir entries) prefix)))
            /\ repo w' = repo w0 /\ calls w' = calls w0 ++ map fs_readdir dirs)
    as (w' & dirs & Hrun & Hr & Hc).
  { exists w', (dir :: dirs). split; [exact Hrun|]. split; [done|].
    rewrite Hc, Hc0, <- app_assoc. done. }
  clearbody w0. clear Hw0 Hc0 w. cbn [walk].
  revert files w0.
  induction IH as [|[name child] rest Hchild Hrest IHrest]; intros files w.
  - exists w, []. simpl. by rewrite !app_nil_r.
  - rewrite for_of_cons. cbn [flat_map]. unfold bind at 1.
    destruct (skipped name).
    + cbn [ret]. apply IHrest.
    + simpl in Hchild. rewrite map_app.
      destruct child as [text| |kids].
      * cbn [ret].
        destruct (IHrest (push files (path_join2 prefix name)) w) as (w' & ds & -> & Hw & Hc).
        exists w', ds. split; [|done]. unfold push. by rewrite <- app_assoc.
      * cbn [ret].
        destruct (IHrest (push files (path_join2 prefix name)) w) as (w' & ds & -> & Hw & Hc).
        exists w', ds. split; [|done]. unfold push. by rewrite <- app_assoc.
      * destruct (Hchild kids eq_refl (path_join2 dir name) (path_join2 prefix name)
                    (push files (path_join2 prefix name +:+ "/")) w)
          as (w1 & ds1 & -> & Hw1 & Hc1).
        destruct (IHrest (push files (path_join2 prefix name +:+ "/")
                            ++ map render (walk (Dir kids) (path_join2 prefix name))) w1)
          as (w' & ds & -> & Hw & Hc).
        exists w', (ds1 ++ ds). split; [|split; [congruence|]].
        -- unfold push. simpl. by rewrite <- !app_assoc.
        -- rewrite Hc, Hc1, map_app, app_assoc. done.
Qed.

(** Strings: prefixes, last units and pieces. *)
Lemma prefix_app a b : String.prefix a (a +:+ b) = true.
Proof.
  induction a as [|c a IH]; [by destruct b|].
  change (String c a +:+ b) with (String c (a +:+ b)). cbn [String.prefix].
  destruct (ascii_dec c c); [done|congruence].
Qed.

Lemma prefix_app_inv a x : String.prefix a x = true -> exists b, x = a +:+ b.
Proof.
  revert x. induction a as [|c a IH]; intros x; simpl.
  - by exists x.
  - destruct x as [|d x]; [done|]. cbn [String.prefix].
    destruct (ascii_dec c d) as [->|]; [|done].
    intros [b ->]%IH. by exists b.
Qed.

Lemma string_app_assoc (a b c : string) : (a +:+ b) +:+ c = a +:+ (b +:+ c).
Proof.
  induction a as [|x a IH]; [done|]. rewrite !append_cons. by f_equal.
Qed.

Lemma last_unit_app a b : b <> "" -> last_unit (a +:+ b) = last_unit b.
Proof.
  intros Hb. induction a as [|c a IH]; [done|].
  rewrite append_cons. cbn [last_unit]. destruct (a +:+ b) eqn:E; [|done].
  destruct a; [|done]. rewrite append_nil in E. by subst.
Qed.

Lemma last_unit_has c s : last_unit s = Some c -> has_unit c s = true.
Proof.
  induction s as [|x s IH]; [done|]. cbn [last_unit has_unit].
  destruct s as [|y s].
  - intros [= ->]. by rewrite Ascii.eqb_refl.
  - intros H. rewrite (IH H). apply orb_true_r.
Qed.

Lemma split_no_sep sep s : has_unit sep s = false -> split sep s = [s].
Proof.
  induction s as [|c s IH]; [done|]. cbn [has_unit split].
  intros [Hc Hs]%orb_false_iff. rewrite Hc, (IH Hs). done.
Qed.

Lemma valid_name_inv name :
  valid_name name = true -> name <> "" /\ has_unit "/"%char name = false.
Proof.
  unfold valid_name. intros [H1 H2]%andb_true_iff.
  apply negb_true_iff in H1, H2. split; [|done].
  intros ->. done.
Qed.

Lemma path_join2_valid prefix name :
  valid_name name = true ->
  path_join2 prefix name = (if String.eqb prefix "" then name else prefix +:+ "/" +:+ name).
Proof.
  intros [Hne _]%valid_name_inv. unfold path_join2.
  destruct prefix, name; done.
Qed.

Lemma path_join2_nonempty prefix name : path_join2 prefix name <> "".
Proof. unfold path_join2. destruct prefix, name; done. Qed.

Lemma skipped_false_shown name : skipped name = false -> shown name.
Proof.
  unfold skipped. intros [H1 H2]%orb_false_iff. split; [done|].
  intros ->. done.
Qed.

Lemma split_path_join2 prefix name :
  valid_name name = true -> skipped name = false ->
  Forall shown (split "/" prefix) ->
  Forall shown (split "/" (path_join2 prefix name)).
Proof.
  intros Hv Hs Hp. pose proof (valid_name_inv _ Hv) as [_ Hno].
  rewrite path_join2_valid by done.
  destruct (String.eqb_spec prefix "") as [->|Hne].
  - rewrite split_no_sep by done. constructor; [by apply skipped_false_shown|constructor].
  - change (prefix +:+ "/" +:+ name) with (prefix +:+ String "/" name).
    rewrite split_app, (split_no_sep _ name) by done.
    apply Forall_app. split; [done|].
    constructor; [by apply skipped_false_shown|constructor].
Qed.

Lemma split_dir_entry rel :
  Forall shown (split "/" rel) -> Forall shown (split "/" (rel +:+ "/")).
Proof.
  intros H. change (rel +:+ "/") with (rel +:+ String "/" "").
  rewrite split_app. apply Forall_app. split; [done|].
  constructor; [|constructor]. split; done.
Qed.

(** Induction on a tree, entry by entry. *)
Lemma node_entries_ind (P : node -> Prop) :
  (forall text, P (File text)) ->
  P Unreadable ->
  P (Dir []) ->
  (forall name child rest, P child -> P (Dir rest) -> P (Dir ((name, child) :: rest))) ->
  forall n, P n.
Proof.
  intros HF HU HN HC.
  induction n as [text| |entries IH] using node_nested_ind; [done..|].
  induction IH as [|[name child] rest Hchild _ IHrest]; [done|].
  by apply HC.
Qed.

Lemma walk_cons name child rest prefix :
  walk (Dir ((name, child) :: rest)) prefix
  = (if skipped name then []
     else match child with
          | Dir kids => {| relativePath := path_join2 prefix name; subtree := Some kids |}
                        :: walk child (path_join2 prefix name)
          | _ => [ {| relativePath := path_join2 prefix name; subtree := None |} ]
          end)
    ++ walk (Dir rest) prefix.
Proof. reflexivity. Qed.

Lemma valid_names_cons name child rest :
  valid_names (Dir ((name, child) :: rest)) = true ->
  valid_name name = true /\ valid_names child = true /\ valid_names (Dir rest) = true.
Proof.
  cbn [valid_names forallb]. intros [[H1 H2]%andb_true_iff H3]%andb_true_iff. done.
Qed.

(** No piece of a listed path is hidden or the dependency directory. *)
Lemma walk_shown (n : node) :
  valid_names n = true ->
  forall prefix, Forall shown (split "/" prefix) ->
  forall item, item ∈ walk n prefix -> Forall shown (split "/" (render item)).
Proof.
  induction n as [text| | |name child rest IHchild IHrest] using node_entries_ind;
    intros Hv prefix Hp item Hin; try by apply elem_of_nil in Hin.
  apply valid_names_cons in Hv as (Hname & Hchild & Hrest).
  rewrite walk_cons in Hin. apply elem_of_app in Hin as [Hin|Hin];
    [|by apply (IHrest Hrest prefix)].
  destruct (skipped name) eqn:Hs; [by apply elem_of_nil in Hin|].
  pose proof (split_path_join2 prefix name Hname Hs Hp) as Hrel.
  destruct child as [text| |kids].
  - apply list_elem_of_singleton in Hin as ->. exact Hrel.
  - apply list_elem_of_singleton in Hin as ->. exact Hrel.
  - apply elem_of_cons in Hin as [->|Hin].
    + by apply split_dir_entry.
    + by apply (IHchild Hchild (path_join2 prefix name)).
Qed.

(** Exactly the directories end with the separator. *)
Lemma walk_separator (n : node) :
  valid_names n = true ->
  forall prefix item, item ∈ walk n prefix ->
    (is_Some (subtree item) <-> last_unit (render item) = Some "/"%char).
Proof.
  induction n as [text| | |name child rest IHchild IHrest] using node_entries_ind;
    intros Hv prefix item Hin; try by apply elem_of_nil in Hin.
  apply valid_names_cons in Hv as (Hname & Hchild & Hrest).
  rewrite walk_cons in Hin. apply elem_of_app in Hin as [Hin|Hin];
    [|by apply (IHrest Hrest prefix)].
  destruct (skipped name) eqn:Hs; [by apply elem_of_nil in Hin|].
  assert (Hfile : last_unit (path_join2 prefix name) <> Some "/"%char).
  { pose proof (valid_name_inv _ Hname) as [Hne Hno].
    rewrite path_join2_valid by done.
    destruct (String.eqb prefix "").
    - intros H%last_unit_has. congruence.
    - rewrite <- string_app_assoc, last_unit_app by done.
      intros H%last_unit_has. congruence. }
  assert (Hdir : forall rel, last_unit (rel +:+ "/") = Some "/"%char).
  { intros rel. by rewrite last_unit_app. }
  destruct child as [text| |kids].
  - apply list_elem_of_singleton in Hin as ->. unfold render; simpl.
    split; [by intros [? [=]]|done].
  - apply list_elem_of_singleton in Hin as ->. unfold render; simpl.
    split; [by intros [? [=]]|done].
  - apply elem_of_cons in Hin as [->|Hin].
    + unfold render; simpl. split; [by intros _|by eexists].
    + by apply (IHchild Hchild (path_join2 prefix name)).
Qed.

(** What is listed below a directory has the directory's path, with the
    separator, in front. *)
Lemma walk_under (n : node) :
  valid_names n = true ->
  forall prefix, prefix <> "" ->
  forall item, item ∈ walk n prefix ->
    String.prefix (prefix +:+ "/") (relativePath item) = true.
Proof.
  induction n as [text| | |name child rest IHchild IHrest] using node_entries_ind;
    intros Hv prefix Hp item Hin; try by apply elem_of_nil in Hin.
  apply valid_names_cons in Hv as (Hname & Hchild & Hrest).
  rewrite walk_cons in Hin. apply elem_of_app in Hin as [Hin|Hin];
    [|by apply (IHrest Hrest prefix)].
  destruct (skipped name) eqn:Hs; [by apply elem_of_nil in Hin|].
  assert (Hrel : path_join2 prefix name = (prefix +:+ "/") +:+ name).
  { rewrite path_join2_valid by done.
    destruct (String.eqb_spec prefix ""); [done|]. by rewrite string_app_assoc. }
  destruct child as [text| |kids].
  - apply list_elem_of_singleton in Hin as ->. simpl. rewrite Hrel. apply prefix_app.
  - apply list_elem_of_singleton in Hin as ->. simpl. rewrite Hrel. apply prefix_app.
  - apply elem_of_cons in Hin as [->|Hin].
    + simpl. rewrite Hrel. apply prefix_app.
    + apply (IHchild Hchild (path_join2 prefix name)) in Hin;
        [|apply path_join2_nonempty].
      apply prefix_app_inv in Hin as [b ->]. rewrite Hrel.
      generalize (prefix +:+ "/"). intros p.
      rewrite !string_app_assoc. apply prefix_app.
Qed.

(** A listed directory is followed at once by the listing of what is
    below it. *)
Lemma walk_block (n : node) :
  valid_names n = true ->
  forall prefix i rel kids,
    walk n prefix !! i = Some {| relativePath := rel; subtree := Some kids |} ->
    exists back,
      drop (S i) (walk n prefix) = walk (Dir kids) rel ++ back
      /\ forall item, item ∈ walk (Dir kids) rel ->
            String.prefix (rel +:+ "/") (relativePath item) = true.
Proof.
  induction n as [text| | |name child rest IHchild IHrest] using node_entries_ind;
    intros Hv prefix i rel kids Hi; try done.
  apply valid_names_cons in Hv as (Hname & Hchild & Hrest).
  rewrite walk_cons in Hi |- *.
  destruct (skipped name) eqn:Hs; [by apply (IHrest Hrest)|].
  destruct child as [text| |kids0].
  - destruct i as [|i]; [done|]. by apply (IHrest Hrest).
  - destruct i as [|i]; [done|]. by apply (IHrest Hrest).
  - destruct i as [|i].
    + injection Hi as <- <-. exists (walk (Dir rest) prefix). split; [done|].
      intros item Hin. apply (walk_under _ Hchild); [apply path_join2_nonempty|done].
    + rewrite <- app_comm_cons in Hi |- *. rewrite skipn_cons.
      change (?x :: ?l) with ([x] ++ l) in Hi.
      rewrite (lookup_app_r [_] _ (S i)) in Hi by (simpl; lia).
      replace (S i - length [ {| relativePath := path_join2 prefix name;
                                 subtree := Some kids0 |} ]) with i in Hi by (simpl; lia).
      destruct (decide (i < length (walk (Dir kids0) (path_join2 prefix name)))) as [Hlt|Hge].
      * rewrite lookup_app_l in Hi by done.
        destruct (IHchild Hchild _ _ _ _ Hi) as (back & Hd & Hu).
        exists (back ++ walk (Dir rest) prefix). split; [|done].
        rewrite drop_app_le by lia. by rewrite Hd, app_assoc.
      * rewrite lookup_app_r in Hi by lia.
        destruct (IHrest Hrest _ _ _ _ Hi) as (back & Hd & Hu).
        exists back. split; [|done].
        rewrite drop_app_ge by lia. rewrite <- Hd. f_equal. lia.
Qed.

End ListingFacts.

Module ListingClaims.
Import JS Config World Repository ListingSpec JSFacts ListingFacts.

(** C5: for every platform whose directory exists in the working copy,
    [getDirectoryStructure] returns the depth-first preorder listing: no
    piece of a listed path begins with '.' or is 'node_modules';
    exactly the directory entries end with the separator; and a directory
    entry is followed at once by everything listed below it, each with
    the directory's path in front, before any later entry. *)
Theorem getDirectoryStructure_preorder
    (dir cwd : string) (cfg : config) (platform : PLATFORMS) (w : World)
    (root : node) (entries : list (string * node)) :
  repo w = Some root ->
  find_path root (platform_segments cfg platform) = Some (Dir entries) ->
  valid_names (Dir entries) = true ->
  exists w',
    let items := walk (Dir entries) "" in
    getDirectoryStructure dir cwd cfg platform w = (w', inr (map render items))
    /\ (forall item, item ∈ items -> Forall shown (split "/" (render item)))
    /\ (forall item, item ∈ items ->
          (is_Some (subtree item) <-> last_unit (render item) = Some "/"%char))
    /\ (forall i rel kids,
          items !! i = Some {| relativePath := rel; subtree := Some kids |} ->
          exists back,
            drop (S i) items = walk (Dir kids) rel ++ back
            /\ forall item, item ∈ walk (Dir kids) rel ->
                 String.prefix (rel +:+ "/") (relativePath item) = true).
Proof.
  intros Hrepo Hfind Hvalid.
  destruct (traverse_walk (Dir entries) entries eq_refl
              (path_join [cwd; dir; boilerplateDir cfg; platform_value platform])
              "" [] w) as (w' & dirs & Hrun & _).
  exists w'. cbn zeta. split; [|split; [|split]].
  - unfold getDirectoryStructure, bind, get_repo. rewrite Hrepo. simpl.
    rewrite Hfind. exact Hrun.
  - intros item Hin. apply (walk_shown _ Hvalid "" ); [|done].
    constructor; [split; done|constructor].
  - intros item Hin. by apply (walk_separator _ Hvalid "").
  - intros i rel kids Hi. by apply (walk_block _ Hvalid "").
Qed.

Lemma getDirectoryStructure_preorder_witness :
  exists w',
    getDirectoryStructure "repo" "/app" example_config BACKEND example_world
    = (w', inr ["src/"; "src/index.ts"; "src/utils/"; "src/utils/a.ts"; "AGENTS.md"]).
Proof.
  destruct (getDirectoryStructure_preorder "repo" "/app" example_config BACKEND
              example_world example_repo _ eq_refl eq_refl eq_refl) as (w' & H & _).
  exists w'. exact H.
Defined.

End ListingClaims.

Module RepositoryClaims.
Import JS Config World Repository McpServer.

(** With the working copy present and the remote out of reach, [ensureRepo]
    rejects; it does not return success. *)
Lemma ensureRepo_pull_failure_rejects :
  (Repository.ensureRepo "https://example.org/repo.git" "repo" git_offline
     example_world).2 <> inr tt
  /\ (Repository.ensureRepo "https://example.org/repo.git" "repo" git_offline
        example_world).2 = inl (GitError "unable to access remote").
Proof. split; [vm_compute; discriminate|reflexivity]. Qed.

(** What [readAgentsMd] gives depends on the working copy alone. *)
Lemma readAgentsMd_result (dir : string) (cfg : config) (platform : PLATFORMS) (w : World) :
  Repository.readAgentsMd dir cfg platform w
  = (call (fs_readFile (path_join [dir; boilerplateDir cfg; platform_value platform;
                                   "AGENTS.md"])) w,
     (Repository.readAgentsMd dir cfg platform
        {| repo := repo w; console := []; calls := [] |}).2).
Proof.
  unfold Repository.readAgentsMd, try_catch, readFile, bind, effect, get_repo. simpl.
  destruct (repo w ≫= _) as [[text| |es]|]; reflexivity.
Qed.

(** C1 (amended): when the working copy exists and the pull fails, the
    failure is logged and thrown again: [ensureRepo] rejects with the
    error of the pull, after the calls [access] and [pull] and nothing
    else; a resource read, which awaits it, rejects with that error
    without reading; and when the failed pull left the working copy as it
    was, [readAgentsMd] gives afterwards what it gave before. *)
Theorem ensureRepo_pull_failure_is_rethrown
    (cfg : config) (git : Git) (w : World)
    (tree tree' : node) (e : JSError) :
  repo w = Some tree ->
  pull git tree = (tree', Some e) ->
  let w' := {| repo := Some tree';
               console := console w ++ ["Pulling repository...";
                                        "Error managing repository: " +:+ error_to_string e];
               calls := calls w ++ [fs_access (repoDir cfg); git_pull (repoDir cfg)] |} in
  Repository.ensureRepo (repoUrl cfg) (repoDir cfg) git w = (w', inl e)
  /\ (forall platform, resource_handler cfg git platform w = (w', inl e))
  /\ (tree' = tree ->
      forall platform,
        (Repository.readAgentsMd (repoDir cfg) cfg platform w').2
        = (Repository.readAgentsMd (repoDir cfg) cfg platform w).2).
Proof.
  intros Hrepo Hpull w'.
  assert (Hens : Repository.ensureRepo (repoUrl cfg) (repoDir cfg) git w = (w', inl e)).
  { subst w'. destruct w as [r out cs]. simpl in Hrepo. subst r.
    unfold Repository.ensureRepo, access_dir, do_pull, try_catch, bind, effect, get_repo,
      ret, throw, print, call, set_repo.
    cbn. rewrite Hpull. cbn. rewrite <- !app_assoc. reflexivity. }
  split; [exact Hens|]. split.
  - intros platform. unfold resource_handler, bind, McpServer.ensureRepo. by rewrite Hens.
  - intros -> platform.
    rewrite (readAgentsMd_result _ _ _ w'), (readAgentsMd_result _ _ _ w).
    unfold w'. cbn [snd repo]. by rewrite Hrepo.
Qed.

Lemma ensureRepo_pull_failure_is_rethrown_witness :
  Repository.ensureRepo "https://example.org/repo.git" "repo" git_offline example_world
  = ({| repo := Some example_repo;
        console := ["Pulling repository...";
                    "Error managing repository: Error: unable to access remote"];
        calls := [fs_access "repo"; git_pull "repo"] |},
     inl (GitError "unable to access remote")).
Proof.
  exact (proj1 (ensureRepo_pull_failure_is_rethrown example_config git_offline
                  example_world example_repo example_repo
                  (GitError "unable to access remote") eq_refl eq_refl)).
Defined.

End RepositoryClaims.

Module McpServerFacts.
Import JS Config World Repository McpServer RepositoryClaims.

(** The path [readAgentsMd] reads and the segments that lead to it. *)
Lemma readAgentsMd_found (dir : string) (cfg : config) (platform : PLATFORMS)
    (w : World) (text : string) :
  repo w ≫= (fun root => find_path root (platform_segments cfg platform ++ ["AGENTS.md"]))
  = Some (File text) ->
  Repository.readAgentsMd dir cfg platform w
  = (call (fs_readFile (path_join [dir; boilerplateDir cfg; platform_value platform;
                                   "AGENTS.md"])) w, inr text).
Proof.
  intros H. unfold Repository.readAgentsMd, try_catch, readFile, bind, effect, get_repo.
  simpl. by rewrite H.
Qed.

Lemma readAgentsMd_not_found (dir : string) (cfg : config) (platform : PLATFORMS)
    (w : World) :
  (forall text,
     repo w ≫= (fun root => find_path root (platform_segments cfg platform ++ ["AGENTS.md"]))
     <> Some (File text)) ->
  exists code syscall,
    Repository.readAgentsMd dir cfg platform w
    = (call (fs_readFile (path_join [dir; boilerplateDir cfg; platform_value platform;
                                     "AGENTS.md"])) w,
       inl (Error ("Failed to read AGENTS.md for " +:+ platform_value platform +:+ ": "
                   +:+ error_to_string
                         (SystemError code syscall
                            (path_join [dir; boilerplateDir cfg; platform_value platform;
                                        "AGENTS.md"]))))).
Proof.
  intros H. unfold Repository.readAgentsMd, try_catch, readFile, bind, effect, get_repo.
  simpl. destruct (repo w ≫= _) as [[text| |es]|].
  - by destruct (H text).
  - by exists "EACCES", "open".
  - by exists "EISDIR", "read".
  - by exists "ENOENT", "open".
Qed.

Lemma context_of_result (cfg : config) (platform : PLATFORMS) (w : World) :
  context_of cfg platform w
  = (call (fs_readFile (path_join [repoDir cfg; boilerplateDir cfg;
                                   platform_value platform; "AGENTS.md"])) w,
     (context_of cfg platform {| repo := repo w; console := []; calls := [] |}).2).
Proof.
  unfold context_of, bind, McpServer.readAgentsMd.
  rewrite (readAgentsMd_result _ _ _ w).
  rewrite (readAgentsMd_result _ _ _ {| repo := repo w; console := []; calls := [] |}).
  cbn [repo snd]. destruct (Repository.readAgentsMd _ _ _ _).2; reflexivity.
Qed.

(** [Promise.all] over the platforms: one read per platform, in order,
    whatever the reads give. *)
Lemma contexts_calls (cfg : config) (ps : list PLATFORMS) :
  forall w,
    (promise_all_map (context_of cfg) ps w).1
    = {| repo := repo w; console := console w;
         calls := calls w ++
                  map (fun p => fs_readFile (path_join [repoDir cfg; boilerplateDir cfg;
                                                        platform_value p; "AGENTS.md"])) ps |}.
Proof.
  induction ps as [|p ps IH]; intros w; simpl.
  - rewrite app_nil_r. by destruct w.
  - rewrite context_of_result.
    specialize (IH (call (fs_readFile (path_join [repoDir cfg; boilerplateDir cfg;
                                                  platform_value p; "AGENTS.md"])) w)).
    destruct (promise_all_map _ ps _) as [w2 rs]. simpl in IH. subst w2.
    rewrite <- app_assoc. simpl.
    by destruct (context_of _ _ _).2, rs.
Qed.

Lemma contexts_all_found (cfg : config) (doc : PLATFORMS -> string) (ps : list PLATFORMS) :
  forall w,
    (forall p, p ∈ ps ->
       repo w ≫= (fun root => find_path root (platform_segments cfg p ++ ["AGENTS.md"]))
       = Some (File (doc p))) ->
    (promise_all_map (context_of cfg) ps w).2
    = inr (map (fun p => "## " +:+ ascii_toUpperCase (platform_value p) +:+ " AGENTS.md"
                         +:+ nl +:+ nl +:+ doc p) ps).
Proof.
  induction ps as [|p ps IH]; intros w Hdocs; [done|]. cbn [promise_all_map map].
  assert (Hp : context_of cfg p w
               = (call (fs_readFile (path_join [repoDir cfg; boilerplateDir cfg;
                                                platform_value p; "AGENTS.md"])) w,
                  inr ("## " +:+ ascii_toUpperCase (platform_value p) +:+ " AGENTS.md"
                       +:+ nl +:+ nl +:+ doc p))).
  { unfold context_of, bind, McpServer.readAgentsMd.
    rewrite (readAgentsMd_found _ _ _ _ (doc p)); [done|]. apply Hdocs. by left. }
  rewrite Hp.
  specialize (IH (call (fs_readFile (path_join [repoDir cfg; boilerplateDir cfg;
                                                platform_value p; "AGENTS.md"])) w)).
  destruct (promise_all_map _ ps _) as [w2 rs]. simpl in IH.
  rewrite IH; [done|]. intros q Hq. apply Hdocs. by right.
Qed.

Lemma contexts_one_missing (cfg : config) (p : PLATFORMS) (ps : list PLATFORMS) :
  forall w,
    p ∈ ps ->
    (forall text,
       repo w ≫= (fun root => find_path root (platform_segments cfg p ++ ["AGENTS.md"]))
       <> Some (File text)) ->
    exists e, (promise_all_map (context_of cfg) ps w).2 = inl e.
Proof.
  induction ps as [|q ps IH]; intros w Hin Hmiss; [by apply elem_of_nil in Hin|].
  cbn [promise_all_map]. rewrite context_of_result.
  set (w1 := call _ w).
  apply elem_of_cons in Hin as [<-|Hin].
  - destruct (readAgentsMd_not_found (repoDir cfg) cfg p
                {| repo := repo w; console := []; calls := [] |} Hmiss)
      as (code & syscall & Hfail).
    assert (Hc : exists e, (context_of cfg p {| repo := repo w; console := [];
                                                 calls := [] |}).2 = inl e).
    { unfold context_of, bind, McpServer.readAgentsMd. rewrite Hfail. by eexists. }
    destruct Hc as [e ->].
    destruct (promise_all_map _ ps w1) as [w2 rs]. simpl. by eexists.
  - destruct (IH w1 Hin Hmiss) as [e He].
    destruct (promise_all_map _ ps w1) as [w2 rs]. simpl in He. subst rs.
    destruct (context_of _ _ _).2; by eexists.
Qed.

End McpServerFacts.

Module McpServerClaims.
Import JS Config World Repository McpServer RepositoryClaims McpServerFacts ListingFacts.

(** C6: for every platform, when the guideline file is missing or cannot
    be read, [readAgentsMd] rejects with an error that wraps the error of
    the read; it gives no text, and the search tool and the all-contexts
    tool reject in their turn. *)
Theorem readAgentsMd_missing_document_fails
    (cfg : config) (toLowerCase : string -> string) (platform : PLATFORMS) (w : World) :
  (forall text,
     repo w ≫= (fun root => find_path root (platform_segments cfg platform ++ ["AGENTS.md"]))
     <> Some (File text)) ->
  exists code syscall,
    let filePath :=
      path_join [repoDir cfg; boilerplateDir cfg; platform_value platform; "AGENTS.md"] in
    let failure :=
      Error ("Failed to read AGENTS.md for " +:+ platform_value platform +:+ ": "
             +:+ error_to_string (SystemError code syscall filePath)) in
    readAgentsMd cfg platform w = (call (fs_readFile filePath) w, inl failure)
    /\ (forall text, (readAgentsMd cfg platform w).2 <> inr text)
    /\ (forall query,
          (search_best_practices_handler cfg toLowerCase platform query w).2 = inl failure)
    /\ (platform ∈ platforms cfg ->
        exists e, (get_all_contexts_handler cfg w).2 = inl e).
Proof.
  intros Hmiss.
  destruct (readAgentsMd_not_found (repoDir cfg) cfg platform w Hmiss)
    as (code & syscall & Hfail).
  exists code, syscall. cbn zeta. unfold readAgentsMd.
  split; [exact Hfail|]. split; [by rewrite Hfail|]. split.
  - intros query. unfold search_best_practices_handler, bind, readAgentsMd.
    by rewrite Hfail.
  - intros Hin. unfold get_all_contexts_handler, bind.
    destruct (contexts_one_missing cfg platform (platforms cfg) w Hin Hmiss) as [e He].
    destruct (promise_all_map _ _ w) as [w2 rs]. simpl in He. subst rs. by eexists.
Qed.

Lemma readAgentsMd_missing_document_fails_witness :
  (readAgentsMd example_config MOBILE example_world).2 <> inr "".
Proof.
  destruct (readAgentsMd_missing_document_fails example_config ascii_toLowerCase MOBILE
              example_world ltac:(intros text; vm_compute; discriminate))
    as (code & syscall & _ & H & _).
  exact (H "").
Defined.

(** C7: [get_all_contexts] reads the guideline document once per
    configured platform, in the order of the configuration, and when the
    documents are there its text is, platform after platform in that
    order, the heading of the platform followed by the whole document,
    with the horizontal rule between two platforms. *)
Theorem get_all_contexts_reads_each_platform_once
    (cfg : config) (w : World) (doc : PLATFORMS -> string) :
  calls (get_all_contexts_handler cfg w).1
  = calls w ++
    map (fun p => fs_readFile (path_join [repoDir cfg; boilerplateDir cfg;
                                          platform_value p; "AGENTS.md"]))
        (platforms cfg)
  /\ ((forall p, p ∈ platforms cfg ->
         repo w ≫= (fun root => find_path root (platform_segments cfg p ++ ["AGENTS.md"]))
         = Some (File (doc p))) ->
      (get_all_contexts_handler cfg w).2
      = inr (join (nl +:+ nl +:+ "---" +:+ nl +:+ nl)
               (map (fun p => "## " +:+ ascii_toUpperCase (platform_value p)
                              +:+ " AGENTS.md" +:+ nl +:+ nl +:+ doc p)
                    (platforms cfg)))).
Proof.
  unfold get_all_contexts_handler, bind. split.
  - pose proof (contexts_calls cfg (platforms cfg) w) as Hc.
    destruct (promise_all_map _ _ w) as [w2 [e|cs]]; simpl in Hc; subst w2; reflexivity.
  - intros Hdocs. pose proof (contexts_all_found cfg doc (platforms cfg) w Hdocs) as Hr.
    destruct (promise_all_map _ _ w) as [w2 rs]. simpl in Hr. subst rs. reflexivity.
Qed.

Lemma get_all_contexts_reads_each_platform_once_witness :
  (get_all_contexts_handler two_platform_config example_world).2
  = inr ("## BACKEND AGENTS.md" +:+ nl +:+ nl +:+ "backend rules"
         +:+ nl +:+ nl +:+ "---" +:+ nl +:+ nl
         +:+ "## FRONTEND AGENTS.md" +:+ nl +:+ nl +:+ "frontend rules").
Proof.
  refine (eq_trans
    (proj2 (get_all_contexts_reads_each_platform_once two_platform_config example_world
              (fun p => match p with
                        | BACKEND => "backend rules"
                        | FRONTEND => "frontend rules"
                        | MOBILE => ""
                        end)) _) eq_refl).
  intros p Hp.
  apply elem_of_cons in Hp as [->|Hp]; [reflexivity|].
  apply elem_of_cons in Hp as [->|Hp]; [reflexivity|].
  by apply elem_of_nil in Hp.
Defined.

End McpServerClaims.

Module EnsureClaims.
Import JS Config World Repository McpServer RepositoryClaims McpServerFacts ListingFacts.

(** [ensureRepo] begins by testing the directory. *)
Lemma ensureRepo_calls (url dir : string) (git : Git) (w : World) :
  exists rest,
    calls (Repository.ensureRepo url dir git w).1 = calls w ++ fs_access dir :: rest.
Proof.
  destruct w as [r out cs].
  unfold Repository.ensureRepo, access_dir, do_pull, do_clone, try_catch, bind, effect,
    get_repo, ret, throw, print, call, set_repo.
  destruct r as [tree|]; cbn.
  - destruct (pull git tree) as [tree' [e|]]; cbn; rewrite <- app_assoc; by eexists.
  - destruct (clone git) as [e|tree]; cbn; rewrite <- app_assoc; by eexists.
Qed.

(** [getDirectoryStructure] calls nothing but [readdir]. *)
Lemma getDirectoryStructure_calls
    (dir cwd : string) (cfg : config) (platform : PLATFORMS) (w : World) :
  exists dirs,
    calls (Repository.getDirectoryStructure dir cwd cfg platform w).1
    = calls w ++ map fs_readdir dirs.
Proof.
  unfold Repository.getDirectoryStructure, bind, get_repo. cbn beta iota.
  destruct (repo w ≫= (fun root => find_path root (platform_segments cfg platform)))
    as [n|].
  - destruct n as [text| |entries].
    + by eexists [_].
    + by eexists [_].
    + destruct (traverse_walk (Dir entries) entries eq_refl
                  (path_join [cwd; dir; boilerplateDir cfg; platform_value platform])
                  "" [] w) as (w' & dirs & -> & _ & Hc).
      by exists dirs.
  - by eexists [_].
Qed.

(** The three tools make no call of [ensureRepo]: what they call are
    reads of the working copy. *)
Lemma tools_never_call_ensureRepo
    (cwd : string) (cfg : config) (git : Git) (toLowerCase : string -> string)
    (op : Operation) (w : World) :
  exists new,
    calls (handle cwd cfg git toLowerCase op w).1 = calls w ++ new
    /\ match op with
       | read_resource _ => exists rest, new = fs_access (repoDir cfg) :: rest
       | _ => Forall (fun c => is_ensure_call c = false) new
       end.
Proof.
  destruct op as [platform|platform|platform query|]; cbn [handle].
  - unfold bind, resource_handler, bind, McpServer.ensureRepo, McpServer.readAgentsMd.
    destruct (ensureRepo_calls (repoUrl cfg) (repoDir cfg) git w) as [rest Hc].
    destruct (Repository.ensureRepo _ _ _ w) as [w1 [e|[]]]; simpl in Hc.
    + exists (fs_access (repoDir cfg) :: rest). split; [done|by eexists].
    + rewrite (readAgentsMd_result _ _ _ w1).
      destruct (Repository.readAgentsMd _ _ _ _).2; simpl; rewrite Hc, <- app_assoc;
        eexists; (split; [reflexivity|]); by eexists.
  - unfold get_boilerplate_structure_handler, bind, McpServer.getDirectoryStructure.
    destruct (getDirectoryStructure_calls (repoDir cfg) cwd cfg platform w) as [dirs Hc].
    destruct (Repository.getDirectoryStructure _ _ _ _ w) as [w1 [e|structure]];
      simpl in Hc; simpl; exists (map fs_readdir dirs); (split; [exact Hc|]);
      apply Forall_fmap, Forall_forall; done.
  - unfold search_best_practices_handler, bind, McpServer.readAgentsMd.
    rewrite (readAgentsMd_result _ _ _ w).
    destruct (Repository.readAgentsMd _ _ _ _).2; simpl; eexists;
      (split; [reflexivity|]); by repeat constructor.
  - unfold get_all_contexts_handler, bind.
    pose proof (contexts_calls cfg (platforms cfg) w) as Hc.
    destruct (promise_all_map _ _ w) as [w2 [e|cs]]; simpl in Hc; subst w2; simpl;
      eexists; (split; [reflexivity|]); apply Forall_fmap, Forall_forall; done.
Qed.

(** C2, on the example working copy: the search tool, the structure tool
    and the all-contexts tool read the working copy after no call of
    [ensureRepo] at all, where the resource read tests the directory and
    pulls before it reads. *)
Theorem tools_read_without_ensureRepo :
  calls (handle "/app" example_config git_online ascii_toLowerCase
           (search_best_practices BACKEND "rules") example_world).1
  = [fs_readFile "repo/backend/AGENTS.md"]
  /\ calls (handle "/app" example_config git_online ascii_toLowerCase
              (get_boilerplate_structure FRONTEND) example_world).1
     = [fs_readdir "/app/repo/frontend"]
  /\ calls (handle "/app" example_config git_online ascii_toLowerCase
              get_all_contexts example_world).1
     = [fs_readFile "repo/backend/AGENTS.md"; fs_readFile "repo/frontend/AGENTS.md";
        fs_readFile "repo/mobile/AGENTS.md"]
  /\ calls (handle "/app" example_config git_online ascii_toLowerCase
              (read_resource BACKEND) example_world).1
     = [fs_access "repo"; git_pull "repo"; fs_readFile "repo/backend/AGENTS.md"].
Proof. repeat split; reflexivity. Qed.

End EnsureClaims.

Module AppClaims.
Import App.

Lemma same_path_mcp (p : string) :
  same_path "/mcp" p = true ->
  JS.ascii_toLowerCase p = "/mcp" \/ JS.ascii_toLowerCase p = "/mcp/".
Proof.
  unfold same_path. intros [H|H]%orb_true_iff; apply String.eqb_eq in H; [by left|by right].
Qed.

(** On a path that matches the remote-procedure path, the routes for the
    verb: the 405 callbacks for GET and DELETE, none for PUT and PATCH. *)
Lemma find_route_mcp (v : Verb) (p : string) :
  same_path "/mcp" p = true ->
  find_route routes v p
  = match v with
    | POST => Some mcp_post
    | GET => Some mcp_get
    | DELETE => Some mcp_delete
    | PUT | PATCH => None
    end.
Proof.
  intros Hp. assert (Hh : same_path "/health" p = false).
  { unfold same_path. by destruct (same_path_mcp p Hp) as [-> | ->]. }
  unfold routes. cbn [find_route]. rewrite Hp, Hh. by destruct v.
Qed.

(** A PUT on the remote-procedure path, with nothing in front of the
    routes to refuse it, meets no route of the application: it is not
    answered with status 405 and code -32000. *)
Lemma put_is_not_answered_405 :
  ~ exists r,
      respond pass_all (Threw None)
        {| method := PUT; path := "/mcp"; headers := [("host", "localhost:3000")];
           payload := "" |} = Some r
      /\ status r = 405 /\ error_code (body r) = Some (-32000)%Z.
Proof. intros (r & H & _). vm_compute in H. discriminate. Qed.

(** Behind a middleware that refuses foreign hosts, a GET on the
    remote-procedure path with such a host gets the answer of the
    middleware, not the 405 of the route. *)
Lemma foreign_host_is_refused :
  status <$> respond local_host_only (Threw None)
               {| method := GET; path := "/mcp"; headers := [("host", "evil.example")];
                  payload := "" |} = Some 403.
Proof. reflexivity. Qed.

(** C8 (amended): a request whose path matches the remote-procedure path
    and whose verb is not POST is answered by the middleware of
    [createMcpExpressApp()] when that answers it (a foreign host, a body
    it cannot parse); when the middleware passes it on, a GET and a
    DELETE are answered with status 405 and a JSON-RPC error body of code
    -32000, and for the other verbs the application registers no
    route. *)
Theorem get_and_delete_answered_405
    (front : Middleware) (transport : TransportOutcome) (req : Request) :
  method req <> POST ->
  same_path "/mcp" (path req) = true ->
  (forall r, front req = Some r -> respond front transport req = Some r)
  /\ (front req = None ->
      (method req = GET \/ method req = DELETE ->
       exists r, respond front transport req = Some r
                 /\ status r = 405 /\ error_code (body r) = Some (-32000)%Z)
      /\ (method req <> GET -> method req <> DELETE ->
          respond front transport req = None)).
Proof.
  intros Hpost Hpath. unfold respond. split.
  - intros r Hr. by rewrite Hr.
  - intros Hpass. rewrite Hpass, (find_route_mcp _ _ Hpath). split.
    + intros [-> | ->]; eexists; (split; [reflexivity|]); split; reflexivity.
    + intros Hget Hdel. by destruct (method req).
Qed.

Lemma get_and_delete_answered_405_witness :
  exists r,
    respond local_host_only (Threw None)
      {| method := GET; path := "/MCP/"; headers := [("host", "localhost:3000")];
         payload := "" |} = Some r
    /\ status r = 405 /\ error_code (body r) = Some (-32000)%Z.
Proof.
  exact (proj1 (proj2 (get_and_delete_answered_405 local_host_only (Threw None)
                         {| method := GET; path := "/MCP/";
                            headers := [("host", "localhost:3000")]; payload := "" |}
                         ltac:(discriminate) eq_refl) eq_refl)
           (or_introl eq_refl)).
Defined.

End AppClaims.

Module ConcurrencyClaims.
Import Concurrency.

(** Replacing one entry changes a count by what leaves and what comes. *)
Lemma count_insert (P : Pc -> bool) (l : list Pc) (k : nat) (x y : Pc) :
  l !! k = Some y ->
  count P (<[k := x]> l) + (if P y then 1 else 0)
  = count P l + (if P x then 1 else 0).
Proof.
  revert k. induction l as [|p l IH]; intros k Hk; [done|].
  destruct k as [|k]; simpl in Hk.
  - injection Hk as ->. simpl. destruct (P x), (P y); lia.
  - specialize (IH k Hk). simpl. destruct (P x), (P y), (P p); lia.
Qed.

(** A step keeps the commands of the shared instance at one at most. *)
Lemma step_keeps_shared_limit (k : nat) (st st' : State) :
  step k st = Some st' -> running_on Shared st <= 1 -> running_on Shared st' <= 1.
Proof.
  unfold step, running_on. intros Hstep Hinv.
  destruct (pcs st !! k) as [[ |i op|i op| ]|] eqn:Hk; try done.
  - injection Hstep as <-. cbn [pcs].
    pose proof (count_insert (runs_on Shared) (pcs st) k
                  (if dir_exists st then Queued (Own k) Pull else Queued Shared Clone)
                  AtAccess Hk) as H.
    destruct (dir_exists st); simpl in H; lia.
  - destruct (_ <? _)%nat eqn:Hfree; [|done]. injection Hstep as <-. cbn [pcs].
    apply Nat.ltb_lt in Hfree.
    pose proof (count_insert (runs_on Shared) (pcs st) k (Running i op) (Queued i op) Hk)
      as H.
    destruct i as [|c]; simpl in H, Hfree; cbn [running_on] in Hfree; lia.
  - injection Hstep as <-. cbn [pcs].
    pose proof (count_insert (runs_on Shared) (pcs st) k Finished (Running i op) Hk) as H.
    simpl in H. destruct (instance_eqb Shared i); lia.
Qed.

(** Clones, which go through the instance limited to one process, never
    overlap. *)
Lemma clones_never_overlap (schedule : list nat) :
  forall st st', run schedule st = Some st' ->
                 running_on Shared st <= 1 -> running_on Shared st' <= 1.
Proof.
  induction schedule as [|k rest IH]; intros st st' Hrun Hinv; simpl in Hrun.
  - by injection Hrun as <-.
  - destruct (step k st) as [st1|] eqn:Hstep; [|done].
    eapply IH; [exact Hrun|]. by eapply step_keeps_shared_limit.
Qed.

(** C9, on two overlapping calls: with the working copy present both
    pulls run at the same time, each on an instance of its own; with the
    working copy absent the pull of the second call runs while the clone
    of the first is running. *)
Theorem two_git_commands_run_at_once :
  (exists st, run [0; 1; 0; 1] (calls_made 2 true) = Some st
              /\ pcs st = [Running (Own 0) Pull; Running (Own 1) Pull]
              /\ git_running st = 2)
  /\ (exists st, run [0; 0; 1; 1] (calls_made 2 false) = Some st
                 /\ pcs st = [Running Shared Clone; Running (Own 1) Pull]
                 /\ git_running st = 2).
Proof. split; eexists; (split; [reflexivity|]); split; reflexivity. Qed.

End ConcurrencyClaims.

Module RepositoryExtras.
Import JS Config World Repository.

(** Running [ensureRepo] through its cases: the world taken apart, the
    working copy present or absent, the git command succeeding or not. *)
Ltac ensure_cases w git :=
  destruct w as [r out cs];
  unfold repoTools, ensureRepo, access_dir, do_pull, do_clone, try_catch, bind, effect,
    get_repo, ret, throw, print, call, set_repo;
  let t := fresh "t" in
  destruct r as [t|]; cbn;
  [ destruct (pull git t) as [? [?|]] eqn:Hpull
  | destruct (clone git) as [?|?] eqn:Hclone ]; cbn.

Lemma ensureRepo_calls_exact (url dir : string) (git : Git) (w : World) :
  calls (ensureRepo url dir git w).1
  = calls w ++ [fs_access dir;
                match repo w with
                | Some _ => git_pull dir
                | None => git_clone url dir
                end].
Proof. ensure_cases w git; by rewrite <- !app_assoc. Qed.

Lemma ensureRepo_resolved_has_copy (url dir : string) (git : Git) (w : World) :
  (ensureRepo url dir git w).2 = inr tt -> is_Some (repo (ensureRepo url dir git w).1).
Proof. ensure_cases w git; intros H; try done; by inversion H. Qed.

(** X1: one call of [ensureRepo] tests the directory and then runs
    exactly one git command: a pull when the working copy is there, a
    clone when it is not; whatever the outcome. *)
Theorem ensureRepo_one_git_command (url dir : string) (git : Git) (w : World) :
  calls (ensureRepo url dir git w).1
  = calls w ++ [fs_access dir;
                match repo w with
                | Some _ => git_pull dir
                | None => git_clone url dir
                end].
Proof. ensure_cases w git; by rewrite <- !app_assoc. Qed.

(** X2: [ensureRepo] never removes a working copy, and when it resolves
    a working copy exists. *)
Theorem ensureRepo_keeps_working_copy (url dir : string) (git : Git) (w : World) :
  (is_Some (repo w) -> is_Some (repo (ensureRepo url dir git w).1))
  /\ ((ensureRepo url dir git w).2 = inr tt -> is_Some (repo (ensureRepo url dir git w).1)).
Proof. ensure_cases w git; split; intros H; try done; by inversion H. Qed.

Lemma ensureRepo_keeps_working_copy_witness :
  is_Some (repo (ensureRepo "https://example.org/repo.git" "repo" git_offline
                   example_world).1).
Proof.
  exact (proj1 (ensureRepo_keeps_working_copy "https://example.org/repo.git" "repo"
                  git_offline example_world) (mk_is_Some _ _ eq_refl)).
Defined.

(** X3: with no working copy, a clone that fails is thrown again, leaves
    no working copy, and at the start of the server ends the process with
    exit code 1 after the line that names the failure. *)
Theorem clone_failure_is_fatal (url dir : string) (git : Git) (w : World) (e : JSError) :
  repo w = None ->
  clone git = inl e ->
  (ensureRepo url dir git w).2 = inl e
  /\ repo (ensureRepo url dir git w).1 = None
  /\ (repoTools url dir git w).2 = Some 1
  /\ last (console (repoTools url dir git w).1)
     = Some ("Failed to initialize repository: " +:+ error_to_string e).
Proof.
  intros Hrepo Hfail. ensure_cases w git; try done.
  injection Hfail as ->. repeat split. by rewrite !last_snoc.
Qed.

Lemma clone_failure_is_fatal_witness :
  (repoTools "https://example.org/repo.git" "repo" git_offline
     {| repo := None; console := []; calls := [] |}).2 = Some 1.
Proof.
  exact (proj1 (proj2 (proj2
    (clone_failure_is_fatal "https://example.org/repo.git" "repo" git_offline
       {| repo := None; console := []; calls := [] |}
       (GitError "unable to access remote") eq_refl eq_refl)))).
Defined.

(** X4: with no working copy, a clone that succeeds makes the cloned tree
    the working copy, and the next [ensureRepo] pulls it and does not
    clone again. *)
Theorem clone_then_pull (url dir : string) (git : Git) (w : World) (tree : node) :
  repo w = None ->
  clone git = inr tree ->
  let w1 := (ensureRepo url dir git w).1 in
  (ensureRepo url dir git w).2 = inr tt
  /\ repo w1 = Some tree
  /\ calls (ensureRepo url dir git w1).1
     = calls w ++ [fs_access dir; git_clone url dir; fs_access dir; git_pull dir]
  /\ repo (ensureRepo url dir git w1).1 = Some (pull git tree).1.
Proof.
  intros Hrepo Hok. cbn zeta.
  rewrite (ensureRepo_calls_exact url dir git (ensureRepo url dir git w).1).
  rewrite (ensureRepo_calls_exact url dir git w), Hrepo.
  assert (H : (ensureRepo url dir git w).2 = inr tt
              /\ repo (ensureRepo url dir git w).1 = Some tree).
  { clear -Hrepo Hok. ensure_cases w git; try done. split; congruence. }
  destruct H as [H1 H2]. rewrite H2, <- app_assoc. repeat split; try done.
  destruct (ensureRepo url dir git w) as [w1 res]. simpl in *.
  clear -H2. destruct w1 as [r out cs]. simpl in H2. subst r.
  unfold ensureRepo, access_dir, do_pull, do_clone, try_catch, bind, effect,
    get_repo, ret, throw, print, call, set_repo. cbn.
  by destruct (pull git tree) as [? [?|]].
Qed.

Lemma clone_then_pull_witness :
  repo (ensureRepo "https://example.org/repo.git" "repo" git_online
          {| repo := None; console := []; calls := [] |}).1 = Some example_repo.
Proof.
  exact (proj1 (proj2
    (clone_then_pull "https://example.org/repo.git" "repo" git_online
       {| repo := None; console := []; calls := [] |} example_repo eq_refl eq_refl))).
Defined.

(** X5: every rejection of [ensureRepo] is written to the console first:
    the last line is the error line of the error it rejects with; a call
    that resolves writes no error line. *)
Theorem ensureRepo_logs_what_it_throws (url dir : string) (git : Git) (w : World) :
  match (ensureRepo url dir git w).2 with
  | inl e => last (console (ensureRepo url dir git w).1)
             = Some ("Error managing repository: " +:+ error_to_string e)
  | inr _ => exists line,
               last (console (ensureRepo url dir git w).1) = Some line
               /\ (line = "Pulling repository..." \/ line = "Cloning repository...")
  end.
Proof.
  ensure_cases w git; rewrite ?last_snoc; try done; eexists; split; eauto.
Qed.

(** X22: when the working copy exists and the pull succeeds without
    changing it, [ensureRepo] resolves and leaves the same working copy,
    and so does a second call made right after the first. *)
Theorem ensureRepo_twice_unchanged (url dir : string) (git : Git) (w : World) (tree : node) :
  repo w = Some tree ->
  pull git tree = (tree, None) ->
  let w1 := (ensureRepo url dir git w).1 in
  (ensureRepo url dir git w).2 = inr tt
  /\ repo w1 = Some tree
  /\ (ensureRepo url dir git w1).2 = inr tt
  /\ repo (ensureRepo url dir git w1).1 = Some tree.
Proof.
  intros Hrepo Hpull.
  assert (Hone : forall w0, repo w0 = Some tree ->
            (ensureRepo url dir git w0).2 = inr tt
            /\ repo (ensureRepo url dir git w0).1 = Some tree).
  { intros [r out cs] H0. simpl in H0. subst r.
    unfold ensureRepo, access_dir, do_pull, do_clone, try_catch, bind, effect,
      get_repo, ret, throw, print, call, set_repo. cbn. by rewrite Hpull. }
  cbn zeta. destruct (Hone w Hrepo) as [H1 H2].
  destruct (Hone _ H2) as [H3 H4]. done.
Qed.

Lemma ensureRepo_twice_unchanged_witness :
  repo (ensureRepo "https://example.org/repo.git" "repo" git_online
          (ensureRepo "https://example.org/repo.git" "repo" git_online example_world).1).1
  = Some example_repo.
Proof.
  exact (proj2 (proj2 (proj2
    (ensureRepo_twice_unchanged "https://example.org/repo.git" "repo" git_online
       example_world example_repo eq_refl eq_refl)))).
Defined.

End RepositoryExtras.

Module StartupExtras.
Import JS Config World Repository Startup RepositoryExtras.

(** X6: without a repository URL or without a directory the server ends
    with exit code 1 before any call to the file system or to git, and
    leaves the working copy as it is. *)
Theorem startServer_needs_configuration (cfg : config) (git : Git) (w : World) :
  repoUrl cfg = "" \/ repoDir cfg = "" ->
  (startServer cfg git w).2 = Exited 1
  /\ calls (startServer cfg git w).1 = calls w
  /\ repo (startServer cfg git w).1 = repo w.
Proof.
  intros H. unfold startServer, falsy.
  assert (Hf : String.eqb (repoUrl cfg) "" || String.eqb (repoDir cfg) "" = true).
  { destruct H as [-> | ->]; [done|]. apply orb_true_r. }
  by rewrite Hf.
Qed.

Lemma startServer_needs_configuration_witness :
  (startServer (make_config (Some 80) None (Some "repo") None) git_online
     example_world).2 = Exited 1.
Proof.
  exact (proj1 (startServer_needs_configuration
                  (make_config (Some 80) None (Some "repo") None) git_online
                  example_world (or_introl eq_refl))).
Defined.

(** X7: the server listens only once [ensureRepo] has resolved: it then
    listens on the configured port, a working copy exists, and the calls
    made are the test of the directory and one git command; every exit is
    with code 1. *)
Theorem startServer_listens_after_ensure (cfg : config) (git : Git) (w : World) :
  match (startServer cfg git w).2 with
  | Listening p =>
      p = port cfg
      /\ repoUrl cfg <> "" /\ repoDir cfg <> ""
      /\ (ensureRepo (repoUrl cfg) (repoDir cfg) git w).2 = inr tt
      /\ is_Some (repo (startServer cfg git w).1)
      /\ calls (startServer cfg git w).1
         = calls w ++ [fs_access (repoDir cfg);
                       match repo w with
                       | Some _ => git_pull (repoDir cfg)
                       | None => git_clone (repoUrl cfg) (repoDir cfg)
                       end]
  | Exited code => code = 1
  end.
Proof.
  unfold startServer, falsy.
  destruct (String.eqb_spec (repoUrl cfg) "") as [|Hurl]; [done|].
  destruct (String.eqb_spec (repoDir cfg) "") as [|Hdir]; [done|].
  cbn [orb]. unfold repoTools.
  pose proof (ensureRepo_calls_exact (repoUrl cfg) (repoDir cfg) git w) as Hc.
  pose proof (ensureRepo_resolved_has_copy (repoUrl cfg) (repoDir cfg) git w) as Hk.
  destruct (ensureRepo (repoUrl cfg) (repoDir cfg) git w) as [w' [e|[]]]; [done|].
  cbn [fst snd] in *. repeat split; try done. by apply Hk.
Qed.

End StartupExtras.

Module ListingExtras.
Import JS Config World Repository McpServer ListingSpec ReadSpec JSFacts ListingFacts.

Lemma after_reading_nil (w : World) : after_reading [] w = w.
Proof. destruct w. unfold after_reading. simpl. by rewrite !app_nil_r. Qed.

Lemma after_reading_app (a b : list string) (w : World) :
  after_reading b (after_reading a w) = after_reading (a ++ b) w.
Proof. unfold after_reading. simpl. by rewrite !map_app, !app_assoc. Qed.

Lemma read_dirs_cons name child rest dir :
  read_dirs (Dir ((name, child) :: rest)) dir
  = dir :: (if skipped name then []
            else match child with
                 | Dir _ => read_dirs child (path_join2 dir name)
                 | _ => []
                 end)
        ++ tail (read_dirs (Dir rest) dir).
Proof. reflexivity. Qed.

(** The whole effect of [traverse] on a directory. *)
Lemma traverse_run (n : node) :
  forall entries, n = Dir entries ->
  forall dir prefix files w,
    traverse n dir prefix files w
    = (after_reading (read_dirs n dir) w, inr (files ++ map render (walk n prefix))).
Proof.
  induction n as [text| |entries IH] using node_nested_ind; intros es [=<-].
  intros dir prefix files w.
  cbn [traverse]. unfold bind at 1 2. cbn [effect].
  change (call (fs_readdir dir) (print ("Reading directory: " +:+ dir) w))
    with (after_reading [dir] w).
  change (read_dirs (Dir entries) dir) with ([dir] ++ tail (read_dirs (Dir entries) dir)).
  rewrite <- after_reading_app. generalize (after_reading [dir] w). clear w.
  revert files.
  induction IH as [|[name child] rest Hchild Hrest IHrest]; intros files w.
  - simpl. by rewrite after_reading_nil, app_nil_r.
  - rewrite for_of_cons, walk_cons, read_dirs_cons. cbn [tail]. unfold bind at 1.
    destruct (skipped name).
    + cbn [ret app]. apply IHrest.
    + simpl in Hchild. rewrite map_app, <- after_reading_app.
      destruct child as [text| |kids].
      * cbn [ret]. rewrite after_reading_nil, IHrest. unfold push.
        by rewrite <- app_assoc.
      * cbn [ret]. rewrite after_reading_nil, IHrest. unfold push.
        by rewrite <- app_assoc.
      * rewrite (Hchild kids eq_refl), IHrest. unfold push. simpl.
        by rewrite <- !app_assoc.
Qed.

Lemma directories_app (a b : list Listed) :
  directories (a ++ b) = directories a ++ directories b.
Proof. apply List.filter_app. Qed.

Lemma read_dirs_count (n : node) :
  forall dir prefix,
    length (read_dirs n dir) = S (length (directories (walk n prefix))).
Proof.
  induction n as [text| | |name child rest IHchild IHrest] using node_entries_ind;
    intros dir prefix; try done.
  rewrite read_dirs_cons, walk_cons, directories_app. cbn [length].
  rewrite !length_app. specialize (IHrest dir prefix).
  destruct (read_dirs (Dir rest) dir) as [|d tl]; [done|]. cbn [length tail] in *.
  generalize dependent (length (directories (walk (Dir rest) prefix))).
  intros k Hk.
  destruct (skipped name); [simpl; lia|].
  destruct child as [text| |kids]; [simpl; lia..|].
  rewrite (IHchild (path_join2 dir name) (path_join2 prefix name)).
  change (directories (?item :: ?l)) with (item :: directories l).
  cbn [length]. lia.
Qed.

(** X8: when the directory of the platform is missing, or is not a
    directory, [getDirectoryStructure] rejects with the system error of
    the one [readdir] it tried, and the structure tool rejects with it
    and gives no text. *)
Theorem getDirectoryStructure_missing_directory
    (cwd : string) (cfg : config) (platform : PLATFORMS) (w : World) :
  (forall entries,
     repo w ≫= (fun root => find_path root (platform_segments cfg platform))
     <> Some (Dir entries)) ->
  let dirPath := path_join [cwd; repoDir cfg; boilerplateDir cfg; platform_value platform] in
  exists code,
    (code = "ENOENT" \/ code = "ENOTDIR")
    /\ getDirectoryStructure cwd cfg platform w
       = (after_reading [dirPath] w, inl (SystemError code "scandir" dirPath))
    /\ get_boilerplate_structure_handler cwd cfg platform w
       = (after_reading [dirPath] w, inl (SystemError code "scandir" dirPath)).
Proof.
  intros Hmiss dirPath.
  assert (H : exists code, (code = "ENOENT" \/ code = "ENOTDIR")
                /\ getDirectoryStructure cwd cfg platform w
                   = (after_reading [dirPath] w, inl (SystemError code "scandir" dirPath))).
  { unfold getDirectoryStructure, Repository.getDirectoryStructure, bind, get_repo.
    cbn beta iota. fold dirPath.
    destruct (repo w ≫= (fun root => find_path root (platform_segments cfg platform)))
      as [[text| |entries]|].
    - exists "ENOTDIR". split; [by right|reflexivity].
    - exists "ENOTDIR". split; [by right|reflexivity].
    - by destruct (Hmiss entries).
    - exists "ENOENT". split; [by left|reflexivity]. }
  destruct H as (code & Hcode & Hrun). exists code. split; [done|]. split; [done|].
  unfold get_boilerplate_structure_handler, bind. by rewrite Hrun.
Qed.

Lemma getDirectoryStructure_missing_directory_witness :
  exists code,
    getDirectoryStructure "/app" example_config MOBILE example_world
    = (after_reading ["/app/repo/mobile"] example_world,
       inl (SystemError code "scandir" "/app/repo/mobile")).
Proof.
  destruct (getDirectoryStructure_missing_directory "/app" example_config MOBILE
              example_world ltac:(intros entries; vm_compute; discriminate))
    as (code & _ & H & _).
  exists code. exact H.
Defined.

(** X9: reading never writes: [getDirectoryStructure] and [readAgentsMd]
    leave the working copy as it is, whatever they return, and
    [readAgentsMd] writes nothing to the console. *)
Theorem reads_leave_working_copy
    (cwd : string) (cfg : config) (platform : PLATFORMS) (w : World) :
  repo (getDirectoryStructure cwd cfg platform w).1 = repo w
  /\ repo (readAgentsMd cfg platform w).1 = repo w
  /\ console (readAgentsMd cfg platform w).1 = console w.
Proof.
  split.
  - unfold getDirectoryStructure, Repository.getDirectoryStructure, bind, get_repo.
    cbn beta iota.
    destruct (repo w ≫= (fun root => find_path root (platform_segments cfg platform)))
      as [[text| |entries]|]; try reflexivity.
    by rewrite (traverse_run (Dir entries) entries eq_refl).
  - unfold readAgentsMd. by rewrite RepositoryClaims.readAgentsMd_result.
Qed.

(** X10: on a platform directory that exists, the traversal announces
    and reads the directory itself and then every directory it lists,
    each once, in the order of the listing, and no other: the directories
    read are one more than the directory entries returned. *)
Theorem traversal_reads_listed_directories
    (cwd : string) (cfg : config) (platform : PLATFORMS) (w : World)
    (root : node) (entries : list (string * node)) :
  repo w = Some root ->
  find_path root (platform_segments cfg platform) = Some (Dir entries) ->
  let dirPath := path_join [cwd; repoDir cfg; boilerplateDir cfg; platform_value platform] in
  let read := read_dirs (Dir entries) dirPath in
  getDirectoryStructure cwd cfg platform w
  = (after_reading read w, inr (map render (walk (Dir entries) "")))
  /\ length read = S (length (directories (walk (Dir entries) ""))).
Proof.
  intros Hrepo Hfind dirPath read. split; [|apply read_dirs_count].
  unfold getDirectoryStructure, Repository.getDirectoryStructure, bind, get_repo.
  rewrite Hrepo. simpl. rewrite Hfind.
  apply (traverse_run (Dir entries) entries eq_refl).
Qed.

Lemma traversal_reads_listed_directories_witness :
  calls (getDirectoryStructure "/app" example_config BACKEND example_world).1
  = [fs_readdir "/app/repo/backend"; fs_readdir "/app/repo/backend/src";
     fs_readdir "/app/repo/backend/src/utils"].
Proof.
  rewrite (proj1 (traversal_reads_listed_directories "/app" example_config BACKEND
                    example_world example_repo _ eq_refl eq_refl)).
  reflexivity.
Defined.

End ListingExtras.

Module CompletenessExtras.
Import JS Config World Repository McpServer ListingSpec ReadSpec JSFacts ListingFacts
  ListingExtras.

(** What the listing holds for one entry. *)
Lemma walk_lists_entry (entries : list (string * node)) (prefix s : string) (child : node) :
  lookup_entry s entries = Some child ->
  skipped s = false ->
  forall item,
    item ∈ match child with
           | Dir kids => {| relativePath := path_join2 prefix s; subtree := Some kids |}
                         :: walk child (path_join2 prefix s)
           | _ => [ {| relativePath := path_join2 prefix s; subtree := None |} ]
           end ->
    item ∈ walk (Dir entries) prefix.
Proof.
  induction entries as [|[name x] rest IH]; [done|].
  cbn [lookup_entry]. intros Hlook Hshown item Hitem. rewrite walk_cons.
  destruct (String.eqb_spec name s) as [->|Hne].
  - injection Hlook as ->. rewrite Hshown. apply elem_of_app. by left.
  - apply elem_of_app. right. by apply IH.
Qed.

Lemma path_join2_full (a b : string) :
  a <> "" -> b <> "" -> path_join2 a b = a +:+ "/" +:+ b.
Proof. by destruct a, b. Qed.

Lemma foldl_path_join2 (segs : list string) :
  forall acc, acc <> "" -> Forall (fun s => s <> "") segs ->
              foldl path_join2 acc segs = join "/" (acc :: segs).
Proof.
  induction segs as [|s rest IH]; intros acc Hacc Hne; [done|].
  apply Forall_cons in Hne as [Hs Hrest]. cbn [foldl].
  rewrite IH by (done || apply path_join2_nonempty).
  rewrite path_join2_full by done. unfold join.
  destruct rest as [|t rest]; cbn [String.concat]; [done|].
  by rewrite !string_app_assoc.
Qed.

(** Every entry that a path of names which are not skipped leads to is
    in the listing. *)
Lemma walk_complete (n : node) :
  forall entries, n = Dir entries ->
  forall prefix segs target,
    segs <> [] ->
    Forall (fun s => skipped s = false) segs ->
    find_path n segs = Some target ->
    exists item,
      item ∈ walk n prefix
      /\ relativePath item = foldl path_join2 prefix segs
      /\ subtree item = match target with Dir kids => Some kids | _ => None end.
Proof.
  induction n as [text| |entries IH] using node_nested_ind; intros es [=<-].
  intros prefix [|s rest] target Hne Hshown Hfind; [done|].
  apply Forall_cons in Hshown as [Hs Hrest]. cbn [find_path] in Hfind.
  destruct (lookup_entry s entries) as [child|] eqn:Hlook; [|done].
  assert (Hchild : forall kids, child = Dir kids ->
            forall prefix segs target, segs <> [] ->
              Forall (fun s => skipped s = false) segs ->
              find_path child segs = Some target ->
              exists item, item ∈ walk child prefix
                /\ relativePath item = foldl path_join2 prefix segs
                /\ subtree item = match target with Dir kids => Some kids | _ => None end).
  { clear -IH Hlook. induction IH as [|[name x] tl Hx _ IHtl]; [done|].
    cbn [lookup_entry] in Hlook. destruct (String.eqb name s).
    - injection Hlook as ->. exact Hx.
    - by apply IHtl. }
  destruct rest as [|s' rest'].
  - injection Hfind as <-.
    exists {| relativePath := path_join2 prefix s;
              subtree := match child with Dir kids => Some kids | _ => None end |}.
    split; [|done]. apply (walk_lists_entry entries prefix s child Hlook Hs).
    destruct child; by left.
  - destruct child as [text| |kids]; [done..|].
    destruct (Hchild kids eq_refl (path_join2 prefix s) (s' :: rest') target)
      as (item & Hin & Hrel & Hsub); [done..|].
    exists item. split; [|done].
    apply (walk_lists_entry entries prefix s (Dir kids) Hlook Hs). by right.
Qed.

(** X11: the listing is complete: every file or directory of the
    platform directory that is reached through names none of which is
    skipped appears in what [getDirectoryStructure] returns, under its
    path joined by the separator, a directory with the separator at the
    end. *)
Theorem getDirectoryStructure_lists_every_visible_entry
    (cwd : string) (cfg : config) (platform : PLATFORMS) (w : World)
    (root : node) (entries : list (string * node))
    (segs : list string) (target : node) :
  repo w = Some root ->
  find_path root (platform_segments cfg platform) = Some (Dir entries) ->
  segs <> [] ->
  Forall (fun s => skipped s = false) segs ->
  Forall (fun s => s <> "") segs ->
  find_path (Dir entries) segs = Some target ->
  exists w' structure,
    getDirectoryStructure cwd cfg platform w = (w', inr structure)
    /\ (join "/" segs +:+ match target with Dir _ => "/" | _ => "" end) ∈ structure.
Proof.
  intros Hrepo Hfind Hne Hshown Hnames Htarget.
  assert (Hrun : getDirectoryStructure cwd cfg platform w
                 = (after_reading
                      (read_dirs (Dir entries)
                         (path_join [cwd; repoDir cfg; boilerplateDir cfg;
                                     platform_value platform])) w,
                    inr (map render (walk (Dir entries) "")))).
  { unfold getDirectoryStructure, Repository.getDirectoryStructure, bind, get_repo.
    rewrite Hrepo. simpl. rewrite Hfind.
    apply (traverse_run (Dir entries) entries eq_refl). }
  eexists _, _. split; [exact Hrun|].
  destruct (walk_complete (Dir entries) entries eq_refl "" segs target Hne Hshown Htarget)
    as (item & Hin & Hrel & Hsub).
  apply list_elem_of_fmap. exists item. split; [|done].
  unfold render. rewrite Hsub, Hrel.
  assert (Hjoin : foldl path_join2 "" segs = join "/" segs).
  { destruct segs as [|s rest]; [done|]. apply Forall_cons in Hnames as [Hs Hrest].
    cbn [foldl]. replace (path_join2 "" s) with s by (by destruct s).
    by apply foldl_path_join2. }
  rewrite Hjoin. destruct target; [| |done].
  - clear. induction (join "/" segs) as [|c x IH]; [done|].
    by rewrite append_cons, IH.
  - clear. induction (join "/" segs) as [|c x IH]; [done|].
    by rewrite append_cons, IH.
Qed.

Lemma getDirectoryStructure_lists_every_visible_entry_witness :
  exists w' structure,
    getDirectoryStructure "/app" example_config BACKEND example_world = (w', inr structure)
    /\ "src/utils/a.ts" ∈ structure.
Proof.
  destruct (getDirectoryStructure_lists_every_visible_entry "/app" example_config BACKEND
              example_world example_repo _ ["src"; "utils"; "a.ts"] (File "a")
              eq_refl eq_refl ltac:(done)
              ltac:(by repeat constructor) ltac:(by repeat constructor) eq_refl)
    as (w' & structure & Hrun & Hin).
  exists w', structure. split; [exact Hrun|exact Hin].
Defined.

End CompletenessExtras.

Module SearchExtras.
Import JS Search SearchSpec JSFacts SearchFacts SearchClaims ListingFacts.

Lemma includes_unfold (s q : string) :
  includes s q = String.prefix q s || match s with
                                      | "" => false
                                      | String _ s' => includes s' q
                                      end.
Proof. by destruct s. Qed.

Lemma includes_app (a q b : string) : includes (a +:+ q +:+ b) q = true.
Proof.
  induction a as [|c a IH].
  - rewrite append_nil, includes_unfold, prefix_app. done.
  - rewrite append_cons, includes_unfold, IH. apply orb_true_r.
Qed.

Lemma includes_inv (s q : string) :
  includes s q = true -> exists a b, s = a +:+ q +:+ b.
Proof.
  induction s as [|c s IH]; rewrite includes_unfold.
  - rewrite orb_false_r. intros [b ->]%prefix_app_inv. by exists "", b.
  - intros [H|H]%orb_true_iff.
    + apply prefix_app_inv in H as [b ->]. by exists "", b.
    + destruct (IH H) as (a & b & ->). by exists (String c a), b.
Qed.

Lemma includes_trans (s q r : string) :
  includes s q = true -> includes q r = true -> includes s r = true.
Proof.
  intros (a & b & ->)%includes_inv (c & d & ->)%includes_inv.
  replace (a +:+ (c +:+ r +:+ d) +:+ b) with ((a +:+ c) +:+ r +:+ (d +:+ b))
    by (by rewrite !string_app_assoc).
  apply includes_app.
Qed.

Lemma join_cons_cons sep (x y : string) (l : list string) :
  join sep (x :: y :: l) = x +:+ sep +:+ join sep (y :: l).
Proof. reflexivity. Qed.

Lemma join_app sep (l1 l2 : list string) :
  l1 <> [] -> l2 <> [] -> join sep (l1 ++ l2) = join sep l1 +:+ sep +:+ join sep l2.
Proof.
  intros H1 H2. induction l1 as [|x l1 IH]; [done|].
  destruct l1 as [|y l1].
  - destruct l2 as [|z l2]; [done|]. reflexivity.
  - change ((x :: y :: l1) ++ l2) with (x :: y :: (l1 ++ l2)).
    rewrite !join_cons_cons. change (y :: l1 ++ l2) with ((y :: l1) ++ l2).
    rewrite IH by done. by rewrite !string_app_assoc.
Qed.

(** A run of consecutive lines, joined, occurs in the joined whole. *)
Lemma join_includes_block sep (pre block post : list string) :
  block <> [] ->
  includes (join sep (pre ++ block ++ post)) (join sep block) = true.
Proof.
  intros Hb.
  assert (Hright : exists b, join sep (block ++ post) = join sep block +:+ b).
  { destruct post as [|p post].
    - exists "". rewrite app_nil_r. clear.
      induction (join sep block) as [|c x IH]; [done|]. by rewrite append_cons, <- IH.
    - eexists. by rewrite join_app. }
  destruct Hright as [b Hr].
  destruct pre as [|p pre].
  - rewrite app_nil_l, Hr. apply (includes_app "").
  - rewrite join_app by (done || by destruct block).
    rewrite Hr, <- string_app_assoc. apply includes_app.
Qed.

(** The document is its lines joined by line feeds. *)
Lemma join_split_lines (s : string) : join nl (split_lines s) = s.
Proof.
  unfold split_lines. induction s as [|c s IH]; [done|]. cbn [split].
  destruct (Ascii.eqb_spec c LF) as [->|Hne].
  - pose proof (split_nonempty LF s) as Hs.
    destruct (split LF s) as [|l ls] eqn:E; [done|].
    rewrite join_cons_cons, IH. reflexivity.
  - pose proof (split_nonempty LF s) as Hs.
    destruct (split LF s) as [|l ls] eqn:E; [done|].
    destruct ls as [|l' ls].
    + unfold join in *. cbn [String.concat] in *. by rewrite IH.
    + rewrite join_cons_cons in *. rewrite append_cons, IH. reflexivity.
Qed.

(** X12: the report says that nothing was found exactly when no line of
    the document holds the query; otherwise it counts the matching lines,
    which are at most the lines of the document, and shows one entry for
    each. *)
Theorem search_report_counts_matching_lines
    (toLowerCase : string -> string) (platform documentText query : string) :
  let results := search toLowerCase documentText query in
  (results = [] <->
   forall line, line ∈ split_lines documentText ->
                includes (toLowerCase line) (toLowerCase query) = false)
  /\ length results <= length (split_lines documentText)
  /\ search_report toLowerCase platform documentText query
     = match results with
       | [] => "No matches found for " +:+ dquote +:+ query +:+ dquote +:+ " in "
               +:+ platform +:+ " AGENTS.md"
       | _ => "Found " +:+ num (length results) +:+ " matches for " +:+ dquote +:+ query
              +:+ dquote +:+ " in " +:+ platform +:+ " AGENTS.md:" +:+ nl
              +:+ join nl (map show results)
       end.
Proof.
  intros results. split; [|split].
  - split.
    + intros Hnil line Hin. apply list_elem_of_lookup in Hin as [i Hi].
      destruct (includes _ _) eqn:Hm; [|done].
      assert (Hn : S i ∈ map lineNumber results).
      { apply search_line_numbers. split; [lia|]. exists line. by rewrite Nat.sub_1_r. }
      fold results in Hn. rewrite Hnil in Hn. by apply elem_of_nil in Hn.
    + intros Hnone. destruct results as [|m rest] eqn:E; [done|].
      assert (Hn : lineNumber m ∈ map lineNumber results) by (rewrite E; by left).
      apply search_line_numbers in Hn as (_ & line & Hl & Hm).
      rewrite (Hnone line) in Hm; [done|]. by apply list_elem_of_lookup_2 in Hl.
  - unfold results, search. rewrite length_map.
    generalize 0. induction (split_lines documentText) as [|l ls IH]; intros k; [done|].
    cbn [matching_from length]. destruct (includes _ _); cbn [length];
      specialize (IH (S k)); lia.
  - unfold search_report. rewrite search_matches_show. fold results.
    rewrite length_map. by destruct results.
Qed.

(** X13: the context block of every result occurs word for word in the
    document, and the matching line occurs in the block. *)
Theorem context_block_occurs_in_document
    (toLowerCase : string -> string) (documentText query : string) (m : Match) :
  m ∈ search toLowerCase documentText query ->
  includes documentText (contextBlock m) = true
  /\ exists line,
       split_lines documentText !! (lineNumber m - 1) = Some line
       /\ includes (contextBlock m) line = true.
Proof.
  intros Hm. apply search_result_window in Hm as (Hn & [line Hl] & Hctx).
  destruct (window_clipped _ _ _ Hn Hl) as (pre & post & Hsplit & _).
  assert (Hw : window (split_lines documentText) (lineNumber m)
               = lines_before (split_lines documentText) (lineNumber m)
                 ++ [line] ++ lines_after (split_lines documentText) (lineNumber m)).
  { unfold window. by rewrite Hl. }
  split.
  - rewrite <- (join_split_lines documentText) at 1. rewrite Hctx, Hw.
    rewrite Hsplit at 1.
    replace (pre ++ lines_before (split_lines documentText) (lineNumber m)
             ++ line :: lines_after (split_lines documentText) (lineNumber m) ++ post)
      with (pre ++ (lines_before (split_lines documentText) (lineNumber m)
                    ++ [line] ++ lines_after (split_lines documentText) (lineNumber m))
            ++ post) by (by rewrite <- !app_assoc).
    apply join_includes_block. by destruct (lines_before _ _).
  - exists line. split; [done|]. rewrite Hctx, Hw.
    replace line with (join nl [line]) at 2 by done.
    apply (join_includes_block nl _ [line]). done.
Qed.

Lemma context_block_occurs_in_document_witness :
  includes example_document
    (join nl (window (split_lines example_document) 3)) = true.
Proof.
  exact (proj1 (context_block_occurs_in_document ascii_toLowerCase example_document "gamma"
                  {| lineNumber := 3;
                     contextBlock := join nl (window (split_lines example_document) 3) |}
                  ltac:(vm_compute; left))).
Defined.

(** X14: a query that occurs, lowercased, in another lowercased query
    finds every line the other finds: making the query shorter never
    loses a match. *)
Theorem shorter_query_keeps_matches
    (toLowerCase : string -> string) (documentText query shorter : string) (n : nat) :
  includes (toLowerCase query) (toLowerCase shorter) = true ->
  n ∈ map lineNumber (search toLowerCase documentText query) ->
  n ∈ map lineNumber (search toLowerCase documentText shorter).
Proof.
  intros Hsub Hn. apply search_line_numbers in Hn as (H1 & line & Hl & Hm).
  apply search_line_numbers. split; [done|]. exists line. split; [done|].
  by apply (includes_trans _ (toLowerCase query)).
Qed.

Lemma shorter_query_keeps_matches_witness :
  3 ∈ map lineNumber (search ascii_toLowerCase example_document "AMM").
Proof.
  exact (shorter_query_keeps_matches ascii_toLowerCase example_document "Gamma" "AMM" 3
           eq_refl ltac:(vm_compute; left)).
Defined.

(** X15: the lines the search works on give the document back when
    joined by line feeds; so for a document of at most three lines the
    block of every result is the whole document. *)
Theorem short_document_block_is_document
    (toLowerCase : string -> string) (documentText query : string) (m : Match) :
  join nl (split_lines documentText) = documentText
  /\ (length (split_lines documentText) <= 3 ->
      m ∈ search toLowerCase documentText query ->
      contextBlock m = documentText).
Proof.
  split; [apply join_split_lines|]. intros Hlen Hm.
  apply search_result_window in Hm as (Hn & [line Hl] & Hctx).
  pose proof (lookup_lt_Some _ _ _ Hl) as Hlt.
  rewrite Hctx, (window_to_end _ _ line) by (done || lia).
  replace (lineNumber m - 1 - 2) with 0 by lia. apply join_split_lines.
Qed.

Lemma short_document_block_is_document_witness :
  join nl (window (split_lines ("one" +:+ nl +:+ "two")) 2) = "one" +:+ nl +:+ "two".
Proof.
  exact (proj2 (short_document_block_is_document ascii_toLowerCase
                  ("one" +:+ nl +:+ "two") "TWO"
                  {| lineNumber := 2;
                     contextBlock := join nl (window (split_lines ("one" +:+ nl +:+ "two")) 2) |})
           ltac:(vm_compute; lia) ltac:(vm_compute; left)).
Defined.

End SearchExtras.

Module McpServerExtras.
Import JS Config World Repository McpServer RepositoryClaims McpServerFacts.

(** X16: a resource read serves the document as the pull left it: when
    the working copy exists and the pull succeeds, the read returns one
    item with the URI of the platform, the markdown type and the text the
    file has in the tree after the pull, after the calls [access],
    [pull], [readFile] in this order. *)
Theorem resource_read_serves_pulled_document
    (cfg : config) (git : Git) (platform : PLATFORMS) (w : World)
    (tree tree' : node) (text : string) :
  repo w = Some tree ->
  pull git tree = (tree', None) ->
  find_path tree' (platform_segments cfg platform ++ ["AGENTS.md"]) = Some (File text) ->
  (resource_handler cfg git platform w).2
  = inr [ {| uri := "boilerplate://" +:+ platform_value platform +:+ "/agents.md";
             mimeType := "text/markdown";
             text := text |} ]
  /\ repo (resource_handler cfg git platform w).1 = Some tree'
  /\ calls (resource_handler cfg git platform w).1
     = calls w ++ [fs_access (repoDir cfg); git_pull (repoDir cfg);
                   fs_readFile (path_join [repoDir cfg; boilerplateDir cfg;
                                           platform_value platform; "AGENTS.md"])].
Proof.
  intros Hrepo Hpull Hfile.
  assert (Hens : exists w1,
            Repository.ensureRepo (repoUrl cfg) (repoDir cfg) git w = (w1, inr tt)
            /\ repo w1 = Some tree'
            /\ calls w1 = calls w ++ [fs_access (repoDir cfg); git_pull (repoDir cfg)]).
  { destruct w as [r out cs]. simpl in Hrepo. subst r.
    unfold Repository.ensureRepo, access_dir, do_pull, try_catch, bind, effect, get_repo,
      ret, throw, print, call, set_repo.
    cbn. rewrite Hpull. cbn. eexists. split; [reflexivity|]. cbn.
    by rewrite <- !app_assoc. }
  destruct Hens as (w1 & Hens & Hr1 & Hc1).
  unfold resource_handler, bind, McpServer.ensureRepo, McpServer.readAgentsMd.
  rewrite Hens.
  rewrite (readAgentsMd_found (repoDir cfg) cfg platform w1 text)
    by (by rewrite Hr1).
  cbn. rewrite Hr1, Hc1, <- app_assoc. done.
Qed.

Lemma resource_read_serves_pulled_document_witness :
  (resource_handler example_config git_online BACKEND example_world).2
  = inr [ {| uri := "boilerplate://backend/agents.md";
             mimeType := "text/markdown";
             text := "backend rules" |} ].
Proof.
  exact (proj1 (resource_read_serves_pulled_document example_config git_online BACKEND
                  example_world example_repo example_repo "backend rules"
                  eq_refl eq_refl eq_refl)).
Defined.

Lemma platform_value_inj (p q : PLATFORMS) : platform_value p = platform_value q -> p = q.
Proof. by destruct p, q. Qed.

Lemma resource_uri_inj (p q : PLATFORMS) : resource_uri p = resource_uri q -> p = q.
Proof. by destruct p, q. Qed.

(** X17: the resources are registered one per configured platform, in
    the order of the configuration, and no two platforms share a URI: a
    configuration without repeated platforms registers no URI twice. *)
Theorem resources_have_distinct_uris (cfg : config) (git : Git) :
  map fst (resources cfg git) = map resource_uri (platforms cfg)
  /\ (NoDup (platforms cfg) -> NoDup (map fst (resources cfg git))).
Proof.
  assert (H : map fst (resources cfg git) = map resource_uri (platforms cfg)).
  { unfold resources. rewrite map_map. done. }
  split; [done|]. rewrite H. intros Hnd.
  apply NoDup_fmap_2; [|done]. intros p q. apply resource_uri_inj.
Qed.

Lemma resources_have_distinct_uris_witness :
  NoDup (map fst (resources example_config git_online)).
Proof.
  apply (proj2 (resources_have_distinct_uris example_config git_online)).
  repeat (constructor; [by (rewrite ?elem_of_cons, ?elem_of_nil; intuition discriminate)|]).
  constructor.
Defined.

End McpServerExtras.

Module SchemaExtras.
Import Config App Schemas McpServerExtras.

Lemma find_platform (ps : list PLATFORMS) (s : string) (p : PLATFORMS) :
  List.find (fun q => String.eqb (platform_value q) s) ps = Some p <->
  p ∈ ps /\ platform_value p = s.
Proof.
  induction ps as [|q ps IH]; cbn [List.find].
  - split; [done|]. by intros [?%elem_of_nil _].
  - destruct (String.eqb_spec (platform_value q) s) as [Heq|Hne].
    + split.
      * intros [= ->]. split; [by left|done].
      * intros [_ Hp]. f_equal. apply platform_value_inj. congruence.
    + rewrite IH. split.
      * intros [Hin Hp]. split; [by right|done].
      * intros [[->|Hin]%elem_of_cons Hp]; [done|]. done.
Qed.

(** X18: the schema of the structure tool accepts exactly the objects
    whose [platform] is the string value of a configured platform, and
    gives that platform back (the value is matched as it is: another
    case, or a value that is not a string, is refused); the schema of the
    search tool asks in addition for a [query] that is a string. *)
Theorem schemas_accept_configured_platforms
    (cfg : config) (input : json) (p : PLATFORMS) (q : string) :
  (GET_BOILERPLATE_STRUCTURE_SCHEMA cfg input = Some p <->
   p ∈ platforms cfg /\ member "platform" input = Some (JStr (platform_value p)))
  /\ (SEARCH_BEST_PRACTICES_SCHEMA cfg input = Some (p, q) <->
      p ∈ platforms cfg
      /\ member "platform" input = Some (JStr (platform_value p))
      /\ member "query" input = Some (JStr q)).
Proof.
  assert (H : GET_BOILERPLATE_STRUCTURE_SCHEMA cfg input = Some p <->
              p ∈ platforms cfg /\ member "platform" input = Some (JStr (platform_value p))).
  { unfold GET_BOILERPLATE_STRUCTURE_SCHEMA.
    destruct (member "platform" input) as [[| |s|]|]; cbn; try (split; [done|]);
      try (by intros [_ [=]]).
    rewrite find_platform. split.
    - intros [Hin <-]. done.
    - intros [Hin [= ->]]. done. }
  split; [exact H|].
  unfold SEARCH_BEST_PRACTICES_SCHEMA.
  destruct (GET_BOILERPLATE_STRUCTURE_SCHEMA cfg input) as [p'|] eqn:Hp; cbn.
  - destruct (member "query" input) as [[| |s|]|]; cbn.
    + split; [done|]. by intros (_ & _ & [=]).
    + split; [done|]. by intros (_ & _ & [=]).
    + split.
      * intros [= -> ->]. destruct H as [H _]. destruct (H eq_refl). done.
      * intros (Hin & Hm & [= ->]). destruct H as [_ H].
        specialize (H (conj Hin Hm)). congruence.
    + split; [done|]. by intros (_ & _ & [=]).
    + split; [done|]. by intros (_ & _ & [=]).
  - split; [done|]. intros (Hin & Hm & _). destruct H as [_ H].
    by specialize (H (conj Hin Hm)).
Qed.

Lemma schemas_accept_configured_platforms_witness :
  GET_BOILERPLATE_STRUCTURE_SCHEMA example_config
    (JObj [("platform", JStr "backend"); ("extra", JNull)]) = Some BACKEND.
Proof.
  apply (proj1 (schemas_accept_configured_platforms example_config
                  (JObj [("platform", JStr "backend"); ("extra", JNull)]) BACKEND "")).
  split; [by left|reflexivity].
Defined.

End SchemaExtras.

Module ConcurrencyExtras.
Import Concurrency ConcurrencySpec ConcurrencyClaims.

Lemma count_replicate_AtAccess (P : Pc -> bool) (n : nat) :
  P AtAccess = false -> count P (replicate n AtAccess) = 0.
Proof. intros H. induction n as [|n IH]; simpl; [done|]. by rewrite H, IH. Qed.

(** X19: clones, which all go through the instance limited to one
    process, never overlap: however the calls of [ensureRepo] interleave,
    at most one command of the shared instance is running. *)
Theorem clones_are_serialized (n : nat) (present : bool) (schedule : list nat) (st : State) :
  run schedule (calls_made n present) = Some st ->
  running_on Shared st <= 1.
Proof.
  intros Hrun. eapply clones_never_overlap; [exact Hrun|].
  unfold running_on, calls_made. cbn [pcs].
  rewrite count_replicate_AtAccess; [lia|done].
Qed.

Lemma clones_are_serialized_witness :
  exists st, run [0; 1; 0] (calls_made 2 false) = Some st /\ running_on Shared st <= 1.
Proof.
  eexists. split; [reflexivity|].
  exact (clones_are_serialized 2 false [0; 1; 0] _ eq_refl).
Defined.

Lemma total_insert (f : Pc -> nat) (l : list Pc) (k : nat) (x y : Pc) :
  l !! k = Some y ->
  total f (<[k := x]> l) + f y = total f l + f x.
Proof.
  revert k. induction l as [|p l IH]; intros k Hk; [done|].
  destruct k as [|k]; simpl in Hk.
  - injection Hk as ->. simpl. lia.
  - specialize (IH k Hk). simpl. lia.
Qed.

Lemma step_takes_one (k : nat) (st st' : State) :
  step k st = Some st' ->
  S (total steps_left (pcs st')) = total steps_left (pcs st).
Proof.
  unfold step. intros Hstep.
  destruct (pcs st !! k) as [[ |i op|i op| ]|] eqn:Hk; try done.
  - injection Hstep as <-. cbn [pcs].
    pose proof (total_insert steps_left (pcs st) k
                  (if dir_exists st then Queued (Own k) Pull else Queued Shared Clone)
                  AtAccess Hk) as H.
    destruct (dir_exists st); simpl in H; lia.
  - destruct (_ <? _)%nat; [|done]. injection Hstep as <-. cbn [pcs].
    pose proof (total_insert steps_left (pcs st) k (Running i op) (Queued i op) Hk) as H.
    simpl in H. lia.
  - injection Hstep as <-. cbn [pcs].
    pose proof (total_insert steps_left (pcs st) k Finished (Running i op) Hk) as H.
    simpl in H. lia.
Qed.

Lemma run_takes_length (schedule : list nat) :
  forall st st', run schedule st = Some st' ->
                 length schedule + total steps_left (pcs st') = total steps_left (pcs st).
Proof.
  induction schedule as [|k rest IH]; intros st st' Hrun; simpl in Hrun.
  - by injection Hrun as <-.
  - destruct (step k st) as [st1|] eqn:Hstep; [|done].
    apply step_takes_one in Hstep. apply IH in Hrun. simpl. lia.
Qed.

Lemma total_zero_finished (l : list Pc) :
  total steps_left l = 0 -> Forall (fun p => p = Finished) l.
Proof.
  induction l as [|p l IH]; [constructor|]. simpl. intros H.
  constructor; [destruct p; simpl in H; (done || lia)|]. apply IH. lia.
Qed.

(** X20: every call of [ensureRepo] takes at most three steps (the
    test, the start of its git command, its end): [n] calls allow no
    schedule of more than [3 n] steps, and after [3 n] steps every call
    has finished. *)
Theorem calls_finish_in_three_steps
    (n : nat) (present : bool) (schedule : list nat) (st : State) :
  run schedule (calls_made n present) = Some st ->
  length schedule <= 3 * n
  /\ (length schedule = 3 * n -> Forall (fun p => p = Finished) (pcs st)).
Proof.
  intros Hrun. apply run_takes_length in Hrun.
  assert (Hn : total steps_left (pcs (calls_made n present)) = 3 * n).
  { unfold calls_made. cbn [pcs]. clear.
    induction n as [|n IH]; [done|]. cbn [replicate total steps_left]. lia. }
  rewrite Hn in Hrun. split; [lia|].
  intros Hlen. apply total_zero_finished. lia.
Qed.

Lemma calls_finish_in_three_steps_witness :
  exists st, run [0; 0; 0] (calls_made 1 true) = Some st
             /\ Forall (fun p => p = Finished) (pcs st).
Proof.
  eexists. split; [reflexivity|].
  exact (proj2 (calls_finish_in_three_steps 1 true [0; 0; 0] _ eq_refl) eq_refl).
Defined.

Lemma step_never_clones (k : nat) (st st' : State) :
  step k st = Some st' ->
  dir_exists st = true /\ Forall (fun p => clones p = false) (pcs st) ->
  dir_exists st' = true /\ Forall (fun p => clones p = false) (pcs st').
Proof.
  unfold step. intros Hstep [Hdir Hall].
  destruct (pcs st !! k) as [[ |i op|i op| ]|] eqn:Hk; try done.
  - injection Hstep as <-. cbn [pcs dir_exists]. split; [done|].
    rewrite Hdir. by apply Forall_insert.
  - destruct (_ <? _)%nat; [|done]. injection Hstep as <-. cbn [pcs dir_exists].
    pose proof (Forall_lookup_1 _ _ _ _ Hall Hk) as Hq.
    destruct op; [done|]. split; [done|]. by apply Forall_insert.
  - injection Hstep as <-. cbn [pcs dir_exists]. split; [done|]. by apply Forall_insert.
Qed.

(** X21: a working copy that is there is never cloned over: when the
    calls begin with the directory present, no interleaving brings any
    call to queue or run a clone, and the directory stays present. *)
Theorem present_working_copy_is_never_cloned
    (n : nat) (schedule : list nat) (st : State) :
  run schedule (calls_made n true) = Some st ->
  dir_exists st = true /\ Forall (fun p => clones p = false) (pcs st).
Proof.
  assert (Hgen : forall st0 st1, run schedule st0 = Some st1 ->
            dir_exists st0 = true /\ Forall (fun p => clones p = false) (pcs st0) ->
            dir_exists st1 = true /\ Forall (fun p => clones p = false) (pcs st1)).
  { induction schedule as [|k rest IH]; intros st0 st1 Hrun Hinv; simpl in Hrun.
    - by injection Hrun as <-.
    - destruct (step k st0) as [st2|] eqn:Hstep; [|done].
      eapply IH; [exact Hrun|]. by eapply step_never_clones. }
  intros Hrun. apply (Hgen _ _ Hrun). split; [done|].
  unfold calls_made. cbn [pcs]. by apply Forall_replicate.
Qed.

Lemma present_working_copy_is_never_cloned_witness :
  exists st, run [0; 1; 0; 1] (calls_made 2 true) = Some st /\ dir_exists st = true.
Proof.
  eexists. split; [reflexivity|].
  exact (proj1 (present_working_copy_is_never_cloned 2 [0; 1; 0; 1] _ eq_refl)).
Defined.

End ConcurrencyExtras.
